(** * Sparkle::Event — a shallow embedding of [include/Sparkle/Event.h]

    The header defines [EventBinder<Args...>], a registry
    [std::unordered_map<void*, std::vector<LifecycleCallback>>], and
    [Event<Args...>], which owns one binder and raises it.

    Modelling choices.
    - Addresses ([void*], [T*]) are integers; [nullptr] is [0] and the
      key of object-less subscriptions, [reinterpret_cast<void*>(-1)],
      is [-1].
    - [std::shared_ptr] / [std::weak_ptr] are a control block (if any) and
      a stored pointer.  The world records which control blocks have lost
      their last owner.
    - User code ([Callback], member-function pointers) is opaque: it is
      named, and running it appends one invocation to the world's log.
      User code does not re-enter the event it is called from, and objects
      are destroyed between operations ([Env_destroy]), not by a callback
      in the middle of a pass.
    - The argument pack [Args...] is one type [A] with the state a value is
      left in by a move construction ([moved_from]).
    - A lifecycle lambda is the closure the source builds: its captures and
      which of the five lambda bodies it runs.
    - The map is a [gmap]; the order in which [Raise] and [CallbackCount]
      iterate over it is any enumeration of its entries ([Traversal]).
    - [int] is 32 bits and [size_t] 64 bits, with their conversions written
      out.
    - [assert] is enabled and aborts: operations that assert return
      [Checked]. *)

From stdpp Require Import gmap list strings.
From Stdlib Require Import ZArith Lia.

Local Open Scope Z_scope.

(** ** Values moved by [std::forward<Args>(args)...] *)

(** [moved_from a] is the value left in a by-value parameter after it was
    the source of a move construction. *)
Class Movable (A : Type) := moved_from : A → A.

(** Types for which moving is copying ([int], raw pointers, ...). *)
Definition trivially_copyable (A : Type) `{Movable A} : Prop :=
  ∀ a : A, moved_from a = a.

(** ** Assertions *)

Inductive Checked (T : Type) : Type :=
| Ok (x : T)
| AssertionFailed (msg : string).
Arguments Ok {T} x.
Arguments AssertionFailed {T} msg.

Definition assert {T : Type} (cond : bool) (msg : string) (k : Checked T) : Checked T :=
  if cond then k else AssertionFailed msg.

(** ** Pointers *)

Definition nullptr : Z := 0.

(** [static void *StandaloneCallbackKey = reinterpret_cast<void *>(-1)] *)
Definition StandaloneCallbackKey : Z := -1.

Record shared_ptr := { s_ctrl : option nat; s_get : Z }.
Record weak_ptr := { wk_ctrl : option nat; wk_ptr : Z }.

#[global] Instance shared_ptr_eq_dec : EqDecision shared_ptr.
Proof. solve_decision. Defined.

#[global] Instance weak_ptr_eq_dec : EqDecision weak_ptr.
Proof. solve_decision. Defined.

Definition empty_shared : shared_ptr := {| s_ctrl := None; s_get := nullptr |}.

(** [std::weak_ptr<T>(shared)] *)
Definition weak_of (shared : shared_ptr) : weak_ptr :=
  {| wk_ctrl := s_ctrl shared; wk_ptr := s_get shared |}.

(** [explicit operator bool] of a [shared_ptr]: [get() != nullptr]. *)
Definition shared_bool (p : shared_ptr) : bool := bool_decide (s_get p ≠ nullptr).

(** User code: a [Callback] or a member-function pointer, by name. *)
Abbreviation UserFn := nat.

Section Sparkle.
Context {A : Type} `{Movable A}.

(** ** The world outside the event *)

Record Invocation := Invoked { inv_fn : UserFn; inv_this : option Z; inv_args : A }.

Record World := {
  expired_blocks : gset nat;   (* control blocks whose use_count is 0 *)
  log : list Invocation        (* user code run so far, oldest first *)
}.

(** [weak.expired()] *)
Definition expired (weak : weak_ptr) (w : World) : bool :=
  match wk_ctrl weak with
  | None => true
  | Some c => bool_decide (c ∈ expired_blocks w)
  end.

(** [weak.lock()] *)
Definition lock (weak : weak_ptr) (w : World) : shared_ptr :=
  if expired weak w then empty_shared
  else {| s_ctrl := wk_ctrl weak; s_get := wk_ptr weak |}.

(** Running user code [f] (on receiver [this], for a member function). *)
Definition invoke (f : UserFn) (this : option Z) (args : A) (w : World) : World :=
  {| expired_blocks := expired_blocks w; log := log w ++ [Invoked f this args] |}.

(** The last owner of control block [c] goes away. *)
Definition destroy (c : nat) (w : World) : World :=
  {| expired_blocks := {[c]} ∪ expired_blocks w; log := log w |}.

(** ** Lifecycle callbacks

    One constructor per lambda of the private [Bind] overloads, holding
    the lambda's captures. *)
Inductive LifecycleCallback :=
| bound_Callback_ptr (f : UserFn) (t : Z) (bindOnce : bool)
| bound_Callback_weak (weak : weak_ptr) (f : UserFn) (bindOnce : bool)
| bound_Member_weak (weak : weak_ptr) (f : UserFn) (bindOnce : bool)
| bound_Member_ptr (t : Z) (f : UserFn) (bindOnce : bool)
| bound_Callback (cb : UserFn) (bindOnce : bool).

#[global] Instance LifecycleCallback_eq_dec : EqDecision LifecycleCallback.
Proof. solve_decision. Defined.

(** [cb(args...)]: the body of the lambda.  [true] keeps the callback. *)
Definition call (cb : LifecycleCallback) (args : A) (w : World) : bool * World :=
  match cb with
  | bound_Callback_ptr f t bindOnce =>
      (negb bindOnce, invoke f None args w)
  | bound_Callback_weak weak f bindOnce =>
      if negb (expired weak w) then (negb bindOnce, invoke f None args w)
      else (false, w)
  | bound_Member_weak weak f bindOnce =>
      let locked := lock weak w in
      if shared_bool locked then (negb bindOnce, invoke f (Some (s_get locked)) args w)
      else (false, w)
  | bound_Member_ptr t f bindOnce =>
      (negb bindOnce, invoke f (Some t) args w)
  | bound_Callback cb bindOnce =>
      (negb bindOnce, invoke cb None args w)
  end.

(** ** EventBinder *)

Record EventBinder := { Binds : gmap Z (list LifecycleCallback) }.

Definition InternalBind (bound : LifecycleCallback) (t : Z) (b : EventBinder) : EventBinder :=
  match Binds b !! t with
  | Some v => {| Binds := <[t := v ++ [bound]]> (Binds b) |}
  | None => {| Binds := <[t := [bound]]> (Binds b) |}
  end.

(** The private overloads of [Bind], which take [bindOnce]. *)

(** [Bind(Callback f, T *const t, bool bindOnce)] *)
Definition Bind_Callback_ptr_ (f : UserFn) (t : Z) (bindOnce : bool)
    (b : EventBinder) : Checked EventBinder :=
  assert (bool_decide (t ≠ nullptr)) "Cannot bind to a null pointer"
    (Ok (InternalBind (bound_Callback_ptr f t bindOnce) t b)).

(** [Bind(Callback f, std::weak_ptr<T> weak, bool bindOnce)] *)
Definition Bind_Callback_weak_ (f : UserFn) (weak : weak_ptr) (bindOnce : bool)
    (w : World) (b : EventBinder) : EventBinder :=
  let t := lock weak w in
  if shared_bool t then InternalBind (bound_Callback_weak weak f bindOnce) (s_get t) b
  else b.

(** [Bind(void(T::* const f)(Args...), std::weak_ptr<T> weak, bool bindOnce)] *)
Definition Bind_Member_weak_ (f : UserFn) (weak : weak_ptr) (bindOnce : bool)
    (w : World) (b : EventBinder) : EventBinder :=
  let t := lock weak w in
  if shared_bool t then InternalBind (bound_Member_weak weak f bindOnce) (s_get t) b
  else b.

(** [Bind(void(T::* const f)(Args...), T *const t, bool bindOnce)] *)
Definition Bind_Member_ptr_ (f : UserFn) (t : Z) (bindOnce : bool)
    (b : EventBinder) : Checked EventBinder :=
  assert (bool_decide (t ≠ nullptr)) "Cannot bind to a null pointer"
    (Ok (InternalBind (bound_Member_ptr t f bindOnce) t b)).

(** [Bind(Callback cb, bool bindOnce)] *)
Definition Bind_Callback_ (cb : UserFn) (bindOnce : bool) (b : EventBinder) : EventBinder :=
  InternalBind (bound_Callback cb bindOnce) StandaloneCallbackKey b.

(** *** The public surface of the binder *)

(** [RemoveAll()] *)
Definition RemoveAll (b : EventBinder) : EventBinder := {| Binds := ∅ |}.

(** [IsBound(T *t) const] *)
Definition IsBound_ptr (t : Z) (b : EventBinder) : Checked bool :=
assert (bool_decide (t ≠ nullptr)) "Cannot check bind of a null pointer"
  (Ok (bool_decide (is_Some (Binds b !! t)))).

(** [IsBound(std::weak_ptr<T> weak) const] *)
Definition IsBound_weak (weak : weak_ptr) (w : World) (b : EventBinder) : Checked bool :=
let shared := lock weak w in
if shared_bool shared then IsBound_ptr (s_get shared) b else Ok false.

(** [IsBound(std::shared_ptr<T> shared) const] *)
Definition IsBound_shared (shared : shared_ptr) (b : EventBinder) : Checked bool :=
if shared_bool shared then IsBound_ptr (s_get shared) b else Ok false.

(** [BindOnce(Callback f, T *const t)] and [Bind(Callback f, T *const t)] *)
Definition BindOnce_Callback_ptr (f : UserFn) (t : Z) := Bind_Callback_ptr_ f t true.
Definition Bind_Callback_ptr (f : UserFn) (t : Z) := Bind_Callback_ptr_ f t false.

(** [BindOnce(Callback f, std::shared_ptr<T> shared)] calls a three-argument
    [BindOnce], which no overload provides: the template is ill-formed when
    instantiated, so it has no behaviour to embed. *)

(** [BindOnce(Callback f, std::weak_ptr<T> weak)] *)
Definition BindOnce_Callback_weak (f : UserFn) (weak : weak_ptr) := Bind_Callback_weak_ f weak true.

(** [Bind(Callback f, std::shared_ptr<T> shared)] *)
Definition Bind_Callback_shared (f : UserFn) (shared : shared_ptr) :=
Bind_Callback_weak_ f (weak_of shared) false.

(** [Bind(Callback f, std::weak_ptr<T> weak)] *)
Definition Bind_Callback_weak (f : UserFn) (weak : weak_ptr) := Bind_Callback_weak_ f weak false.

(** [BindOnce(void(T::* const f)(Args...), std::shared_ptr<T> shared)] *)
Definition BindOnce_Member_shared (f : UserFn) (shared : shared_ptr) :=
Bind_Member_weak_ f (weak_of shared) true.

(** [BindOnce(void(T::* const f)(Args...), std::weak_ptr<T> weak)] *)
Definition BindOnce_Member_weak (f : UserFn) (weak : weak_ptr) := Bind_Member_weak_ f weak true.

(** [Bind(void(T::* const f)(Args...), std::shared_ptr<T> shared)] *)
Definition Bind_Member_shared (f : UserFn) (shared : shared_ptr) :=
Bind_Member_weak_ f (weak_of shared) false.

(** [Bind(void(T::* const f)(Args...), std::weak_ptr<T> weak)] *)
Definition Bind_Member_weak (f : UserFn) (weak : weak_ptr) := Bind_Member_weak_ f weak false.

(** [BindOnce(void(T::* const f)(Args...), T * const t)] and [Bind] of the same *)
Definition BindOnce_Member_ptr (f : UserFn) (t : Z) := Bind_Member_ptr_ f t true.
Definition Bind_Member_ptr (f : UserFn) (t : Z) := Bind_Member_ptr_ f t false.

(** [BindOnce(Callback cb)] and [Bind(Callback cb)] *)
Definition BindOnce_Callback (cb : UserFn) := Bind_Callback_ cb true.
Definition Bind_Callback (cb : UserFn) := Bind_Callback_ cb false.

(** [Remove(T * const t)] *)
Definition Remove_ptr (t : Z) (b : EventBinder) : Checked (bool * EventBinder) :=
assert (bool_decide (t ≠ nullptr)) "Cannot remove a null pointer"
  (Ok (match Binds b !! t with
       | Some _ => (true, {| Binds := delete t (Binds b) |})
       | None => (false, b)
       end)).

(** [Remove(std::weak_ptr<T> ptr)] *)
Definition Remove_weak (ptr : weak_ptr) (w : World) (b : EventBinder) : Checked (bool * EventBinder) :=
let shared := lock ptr w in
if shared_bool shared then Remove_ptr (s_get shared) b else Ok (false, b).

(** [Remove(std::shared_ptr<T> ptr)] *)
Definition Remove_shared (ptr : shared_ptr) (b : EventBinder) : Checked (bool * EventBinder) :=
if shared_bool ptr then Remove_ptr (s_get ptr) b else Ok (false, b).

(** ** Event *)

Record Event := { Name : string; Binder : EventBinder }.

(** [explicit Event(const std::string& name = "...")] *)
Definition new_Event (name : string) : Event :=
{| Name := name; Binder := {| Binds := ∅ |} |}.

(** [GetBinder()] hands out a reference: a binder operation run through it
    updates the event in place. *)
Definition set_Binder (e : Event) (b : EventBinder) : Event :=
{| Name := Name e; Binder := b |}.

(** The iteration order of a [std::unordered_map] is unspecified: a
    traversal is any enumeration of the entries. *)
Class Traversal := {
  traverse : gmap Z (list LifecycleCallback) → list (Z * list LifecycleCallback);
  traverse_perm : ∀ m, traverse m ≡ₚ map_to_list m
}.

(** [functionVector.erase(std::remove_if(begin, end, pred), end)] with
    [pred cb = !cb(std::forward<Args>(args)...)]: every callback is called
    once, in order; each call move-constructs its parameters from [args]. *)
Fixpoint erase_remove_if (functionVector : list LifecycleCallback) (args : A) (w : World)
  : list LifecycleCallback * A * World :=
match functionVector with
| [] => ([], args, w)
| cb :: rest =>
    let '(keep, w1) := call cb args w in
    let '(kept, args', w') := erase_remove_if rest (moved_from args) w1 in
    (if keep then cb :: kept else kept, args', w')
end.

(** One turn of the loop of [Raise], at the entry [it]. *)
Definition raise_entry (st : gmap Z (list LifecycleCallback) * A * World)
  (it : Z * list LifecycleCallback) : gmap Z (list LifecycleCallback) * A * World :=
let '(binds, args, w) := st in
let '(functionVector, args', w') := erase_remove_if it.2 args w in
(match functionVector with
 | [] => delete it.1 binds
 | _ :: _ => <[it.1 := functionVector]> binds
 end, args', w').

Context `{Traversal}.

(** [Raise(Args... args)] and [operator()(Args... args)] *)
Definition Raise (e : Event) (args : A) (w : World) : Event * World :=
let '(binds, _, w') :=
  foldl raise_entry (Binds (Binder e), args, w) (traverse (Binds (Binder e))) in
(set_Binder e {| Binds := binds |}, w').

(** Conversions to [int] (32 bits, two's complement) and [size_t] (64 bits). *)
Definition to_int (z : Z) : Z := (z + 2 ^ 31) mod 2 ^ 32 - 2 ^ 31.
Definition to_size_t (z : Z) : Z := z mod 2 ^ 64.
Definition INT_MAX : Z := 2 ^ 31 - 1.

(** [int Size()] *)
Definition Size (e : Event) : Z :=
to_int (to_size_t (Z.of_nat (size (Binds (Binder e))))).

(** [int CallbackCount()]: [total += pair.second.size()] adds in [size_t]
    and converts the sum back to [int]. *)
Definition CallbackCount (e : Event) : Z :=
foldl (λ (total : Z) (pair : Z * list LifecycleCallback),
         to_int (to_size_t (to_size_t total + to_size_t (Z.of_nat (length pair.2)))))
      0 (traverse (Binds (Binder e))).

(** [Cleanup()] *)
Definition Cleanup (e : Event) : Checked Event :=
assert false "Not implemented" (Ok e).

(** ** What a lifecycle callback does, read off its closure

    These functions name the parts of [call] that the statements below
    talk about; [call_spec] relates them to [call]. *)

(** The user code the closure wraps. *)
Definition user_fn (cb : LifecycleCallback) : UserFn :=
match cb with
| bound_Callback_ptr f _ _ | bound_Callback_weak _ f _ | bound_Member_weak _ f _
| bound_Member_ptr _ f _ | bound_Callback f _ => f
end.

(** The captured [bindOnce]. *)
Definition is_once (cb : LifecycleCallback) : bool :=
match cb with
| bound_Callback_ptr _ _ o | bound_Callback_weak _ _ o | bound_Member_weak _ _ o
| bound_Member_ptr _ _ o | bound_Callback _ o => o
end.

(** The captured weak reference, for the two closures that test one. *)
Definition weak_ref (cb : LifecycleCallback) : option weak_ptr :=
match cb with
| bound_Callback_weak weak _ _ | bound_Member_weak weak _ _ => Some weak
| _ => None
end.

(** The object a member function is called on. *)
Definition receiver (cb : LifecycleCallback) : option Z :=
match cb with
| bound_Member_weak weak _ _ => Some (wk_ptr weak)
| bound_Member_ptr t _ _ => Some t
| _ => None
end.

(** The test the closure makes before it runs the user code. *)
Definition liveness (cb : LifecycleCallback) (w : World) : bool :=
match cb with
| bound_Callback_weak weak _ _ => negb (expired weak w)
| bound_Member_weak weak _ _ => shared_bool (lock weak w)
| _ => true
end.

(** The callback stays registered after it ran: what [call] returns. *)
Definition survives (cb : LifecycleCallback) (w : World) : bool :=
liveness cb w && negb (is_once cb).

(** The invocations a vector of callbacks makes when it is run with
    [args], one per callback whose test passes. *)
Fixpoint deliveries (v : list LifecycleCallback) (args : A) (w : World) : list Invocation :=
match v with
| [] => []
| cb :: rest =>
    (if liveness cb w then [Invoked (user_fn cb) (receiver cb) args] else [])
    ++ deliveries rest (moved_from args) w
end.

(** The same for the entries of the map, in the order they are visited. *)
Fixpoint raise_deliveries (entries : list (Z * list LifecycleCallback)) (args : A) (w : World)
  : list Invocation :=
match entries with
| [] => []
| it :: rest =>
    deliveries it.2 args w
    ++ raise_deliveries rest (Nat.iter (length it.2) moved_from args) w
end.

(** What a pass leaves of one vector: its surviving callbacks, or no entry
    at all when none survives. *)
Definition kept (w : World) (v : list LifecycleCallback) : option (list LifecycleCallback) :=
match filter (λ cb, survives cb w = true) v with
| [] => None
| cb :: rest => Some (cb :: rest)
end.

(** The user code [f] ran this many times. *)
Definition times_invoked (f : UserFn) (l : list Invocation) : nat :=
length (filter (λ i, inv_fn i = f) l).

(** The callbacks registered under key [k] ([[]] when the key is absent). *)
Definition callbacks_of (k : Z) (e : Event) : list LifecycleCallback :=
default [] (Binds (Binder e) !! k).

(** Every callback of the registry, whatever its key. *)
Definition all_callbacks (e : Event) : list LifecycleCallback :=
mjoin (map_to_list (Binds (Binder e))).*2.

(** ** The operations a client can run, and the states they reach *)

Definition Checked_map {T U : Type} (g : T → U) (c : Checked T) : Checked U :=
match c with
| Ok x => Ok (g x)
| AssertionFailed msg => AssertionFailed msg
end.

(** One constructor per public member function of the event and of the
    binder it hands out, and one for the environment destroying an object. *)
Inductive Operation :=
| Do_Bind_Callback (cb : UserFn)
| Do_BindOnce_Callback (cb : UserFn)
| Do_Bind_Callback_ptr (f : UserFn) (t : Z)
| Do_BindOnce_Callback_ptr (f : UserFn) (t : Z)
| Do_Bind_Callback_weak (f : UserFn) (weak : weak_ptr)
| Do_BindOnce_Callback_weak (f : UserFn) (weak : weak_ptr)
| Do_Bind_Callback_shared (f : UserFn) (shared : shared_ptr)
| Do_Bind_Member_ptr (f : UserFn) (t : Z)
| Do_BindOnce_Member_ptr (f : UserFn) (t : Z)
| Do_Bind_Member_weak (f : UserFn) (weak : weak_ptr)
| Do_BindOnce_Member_weak (f : UserFn) (weak : weak_ptr)
| Do_Bind_Member_shared (f : UserFn) (shared : shared_ptr)
| Do_BindOnce_Member_shared (f : UserFn) (shared : shared_ptr)
| Do_Remove_ptr (t : Z)
| Do_Remove_weak (ptr : weak_ptr)
| Do_Remove_shared (ptr : shared_ptr)
| Do_RemoveAll
| Do_IsBound_ptr (t : Z)
| Do_IsBound_weak (weak : weak_ptr)
| Do_IsBound_shared (shared : shared_ptr)
| Do_Size
| Do_CallbackCount
| Do_Cleanup
| Do_Raise (args : A)
| Env_destroy (c : nat).

Definition step (op : Operation) (e : Event) (w : World) : Checked (Event * World) :=
let b := Binder e in
let bound (b' : EventBinder) := (set_Binder e b', w) in
let removed (r : bool * EventBinder) := (set_Binder e r.2, w) in
let queried {T : Type} (_ : T) := (e, w) in
match op with
| Do_Bind_Callback cb => Ok (bound (Bind_Callback cb b))
| Do_BindOnce_Callback cb => Ok (bound (BindOnce_Callback cb b))
| Do_Bind_Callback_ptr f t => Checked_map bound (Bind_Callback_ptr f t b)
| Do_BindOnce_Callback_ptr f t => Checked_map bound (BindOnce_Callback_ptr f t b)
| Do_Bind_Callback_weak f weak => Ok (bound (Bind_Callback_weak f weak w b))
| Do_BindOnce_Callback_weak f weak => Ok (bound (BindOnce_Callback_weak f weak w b))
| Do_Bind_Callback_shared f shared => Ok (bound (Bind_Callback_shared f shared w b))
| Do_Bind_Member_ptr f t => Checked_map bound (Bind_Member_ptr f t b)
| Do_BindOnce_Member_ptr f t => Checked_map bound (BindOnce_Member_ptr f t b)
| Do_Bind_Member_weak f weak => Ok (bound (Bind_Member_weak f weak w b))
| Do_BindOnce_Member_weak f weak => Ok (bound (BindOnce_Member_weak f weak w b))
| Do_Bind_Member_shared f shared => Ok (bound (Bind_Member_shared f shared w b))
| Do_BindOnce_Member_shared f shared => Ok (bound (BindOnce_Member_shared f shared w b))
| Do_Remove_ptr t => Checked_map removed (Remove_ptr t b)
| Do_Remove_weak ptr => Checked_map removed (Remove_weak ptr w b)
| Do_Remove_shared ptr => Checked_map removed (Remove_shared ptr b)
| Do_RemoveAll => Ok (bound (RemoveAll b))
| Do_IsBound_ptr t => Checked_map queried (IsBound_ptr t b)
| Do_IsBound_weak weak => Checked_map queried (IsBound_weak weak w b)
| Do_IsBound_shared shared => Checked_map queried (IsBound_shared shared b)
| Do_Size => Ok (queried (Size e))
| Do_CallbackCount => Ok (queried (CallbackCount e))
| Do_Cleanup => Checked_map (λ e', (e', w)) (Cleanup e)
| Do_Raise args => Ok (Raise e args w)
| Env_destroy c => Ok (e, destroy c w)
end.

(** The key and the closure a bind operation hands to [InternalBind], when
    it gets that far. *)
Definition registers (op : Operation) (w : World) : option (Z * LifecycleCallback) :=
let ptr (t : Z) (cb : LifecycleCallback) :=
  if bool_decide (t ≠ nullptr) then Some (t, cb) else None in
let through (weak : weak_ptr) (cb : LifecycleCallback) :=
  if shared_bool (lock weak w) then Some (s_get (lock weak w), cb) else None in
match op with
| Do_Bind_Callback cb => Some (StandaloneCallbackKey, bound_Callback cb false)
| Do_BindOnce_Callback cb => Some (StandaloneCallbackKey, bound_Callback cb true)
| Do_Bind_Callback_ptr f t => ptr t (bound_Callback_ptr f t false)
| Do_BindOnce_Callback_ptr f t => ptr t (bound_Callback_ptr f t true)
| Do_Bind_Callback_weak f weak => through weak (bound_Callback_weak weak f false)
| Do_BindOnce_Callback_weak f weak => through weak (bound_Callback_weak weak f true)
| Do_Bind_Callback_shared f shared =>
    through (weak_of shared) (bound_Callback_weak (weak_of shared) f false)
| Do_Bind_Member_ptr f t => ptr t (bound_Member_ptr t f false)
| Do_BindOnce_Member_ptr f t => ptr t (bound_Member_ptr t f true)
| Do_Bind_Member_weak f weak => through weak (bound_Member_weak weak f false)
| Do_BindOnce_Member_weak f weak => through weak (bound_Member_weak weak f true)
| Do_Bind_Member_shared f shared =>
    through (weak_of shared) (bound_Member_weak (weak_of shared) f false)
| Do_BindOnce_Member_shared f shared =>
    through (weak_of shared) (bound_Member_weak (weak_of shared) f true)
| _ => None
end.

(** States of a program that constructs an event and then runs operations
    none of which aborts. *)
Inductive reachable : Event → World → Prop :=
| reachable_new (name : string) (w : World) :
    reachable (new_Event name) w
| reachable_step (op : Operation) (e e' : Event) (w w' : World) :
    reachable e w → step op e w = Ok (e', w') → reachable e' w'.

(** A run of several operations, stopping at the first that aborts. *)
Fixpoint run (ops : list Operation) (e : Event) (w : World) : Checked (Event * World) :=
match ops with
| [] => Ok (e, w)
| op :: ops' =>
    match step op e w with
    | Ok (e', w') => run ops' e' w'
    | AssertionFailed msg => AssertionFailed msg
    end
end.

(** Several calls of [Raise] in a row, one per element of [l]. *)
Fixpoint Raise_each (l : list A) (e : Event) (w : World) : Event * World :=
match l with
| [] => (e, w)
| args :: l' => let '(e', w') := Raise e args w in Raise_each l' e' w'
end.

(** No key of the map holds an empty vector. *)
Definition no_dangling_keys (e : Event) : Prop :=
∀ k v, Binds (Binder e) !! k = Some v → v ≠ [].

End Sparkle.

(** ** Instances used to evaluate the definitions *)

(** The enumeration of stdpp's [gmap]. *)
#[export] Instance canonical_traversal : Traversal :=
{| traverse := map_to_list; traverse_perm := λ m, reflexivity (map_to_list m) |}.

(** [Event<int>]: moving an [int] copies it. *)
#[export] Instance int_Movable : Movable Z := λ a, a.

(** [Event<std::shared_ptr<T>>]: a moved-from [shared_ptr] is empty. *)
#[export] Instance shared_ptr_Movable : Movable shared_ptr := λ _, empty_shared.

(** ** Scenarios

    Concrete programs, after the test suite. *)

(** Nothing has been destroyed and no user code has run. *)
Definition fresh {A : Type} : @World A := {| expired_blocks := ∅; log := [] |}.

(** The state after running [ops] on a new event ([ops] must not abort). *)
Definition after {A : Type} `{Movable A} (ops : list (@Operation A)) : Event * @World A :=
match run ops (new_Event "OnEvent") fresh with
| Ok s => s
| AssertionFailed _ => (new_Event "OnEvent", fresh)
end.

(** [auto strong = std::make_shared<TestObject>()]: the object lives at
    address 100 and is owned through control block 7. *)
Definition strong : shared_ptr := {| s_ctrl := Some 7%nat; s_get := 100 |}.

(** [&TestObject::Increment] bound through [std::weak_ptr(strong)], the
    event raised once, then [strong] goes out of scope. *)
Definition weak_then_destroyed : list (@Operation Z) :=
[Do_Bind_Member_weak 1%nat (weak_of strong); Do_Raise 5; Env_destroy 7%nat].

(** The same object also registers a lambda under its raw address before it
    is destroyed. *)
Definition weak_and_raw_then_destroyed : list (@Operation Z) :=
[Do_Bind_Member_weak 1%nat (weak_of strong); Do_Bind_Callback_ptr 2%nat (s_get strong);
 Env_destroy 7%nat].

(** Two lambdas listen to an [Event<std::shared_ptr<T>>]; the event is raised
    with a pointer to an object at address 500, owned through control
    block 9. *)
Definition two_listeners : list (@Operation shared_ptr) :=
[Do_Bind_Callback 1%nat; Do_Bind_Callback 2%nat].

Definition payload : shared_ptr := {| s_ctrl := Some 9%nat; s_get := 500 |}.

(** [Bind] is called [n] times with a lambda. *)
Definition bind_many (n : nat) (e : Event) : Event :=
Nat.iter n (λ e', set_Binder e' (Bind_Callback 1%nat (Binder e'))) e.

(** ** The rest of the public surface *)

(** [EventBase::GetName()]: the name given to the constructor. *)
Definition GetName (e : Event) : string := Name e.

(** [Event::GetBinder()] *)
Definition GetBinder (e : Event) : EventBinder := Binder e.

(** [operator()(Args... args)]: [Raise(std::forward<Args>(args)...)] hands
    [Raise] the value the operator was called with. *)
Definition call_operator {A : Type} `{Movable A} `{Traversal}
  (e : Event) (args : A) (w : World) : Event * World :=
Raise e args w.

(** The address a closure was built for: the pointer the bind was given, the
    pointer of its weak reference, or the key of object-less callbacks. *)
Definition bound_key (cb : LifecycleCallback) : Z :=
match cb with
| bound_Callback_ptr _ t _ | bound_Member_ptr t _ _ => t
| bound_Callback_weak weak _ _ | bound_Member_weak weak _ _ => wk_ptr weak
| bound_Callback _ _ => StandaloneCallbackKey
end.

(** The control block a closure tests before it runs user code, if any. *)
Definition tested_block (cb : LifecycleCallback) : option nat :=
match weak_ref cb with
| Some weak => wk_ctrl weak
| None => None
end.

(** What the [n]-th callback visited by a pass does when [Raise] was called
    with [args]: if its test passes it runs its user code on [args] moved
    from [n] times. *)
Definition delivery {A : Type} `{Movable A} (args : A) (w : @World A)
  (n : nat) (cb : LifecycleCallback) : list (@Invocation A) :=
if liveness cb w
then [Invoked (user_fn cb) (receiver cb) (Nat.iter n moved_from args)]
else [].

(** A member function of the object at address 100 and a lambda are
    bound. *)
Definition object_and_lambda : list (@Operation Z) :=
[Do_Bind_Member_ptr 1%nat 100; Do_Bind_Callback 2%nat].

(** * Properties *)

Section Properties.
Context {A : Type} `{Movable A} `{Traversal}.
Implicit Types (w : @World A) (cb : LifecycleCallback) (v : list LifecycleCallback).
Implicit Types (a args : A) (e : Event) (k t : Z) (f : UserFn).

(** ** The lifecycle lambdas *)

Lemma expired_lock weak w :
  shared_bool (lock weak w) = negb (expired weak w) && bool_decide (wk_ptr weak ≠ nullptr).
Proof.
  unfold lock, shared_bool. by destruct (expired weak w).
Qed.

Lemma lock_get weak w : shared_bool (lock weak w) = true → s_get (lock weak w) = wk_ptr weak.
Proof. unfold lock, shared_bool. by destruct (expired weak w). Qed.

Lemma lock_expired weak w : expired weak w = true → shared_bool (lock weak w) = false.
Proof. intros E. by rewrite expired_lock, E. Qed.

Lemma call_spec cb a w :
  call cb a w =
    (liveness cb w && negb (is_once cb),
     if liveness cb w then invoke (user_fn cb) (receiver cb) a w else w).
Proof.
  destruct cb as [f t o|weak f o|weak f o|t f o|f o]; simpl; try done.
  - by destruct (expired weak w).
  - destruct (shared_bool (lock weak w)) eqn:E; [|done].
    by rewrite (lock_get _ _ E).
Qed.

Lemma expired_weak_dead cb weak w :
  weak_ref cb = Some weak → expired weak w = true → liveness cb w = false.
Proof.
  destruct cb; simpl; intros [= ->] E; rewrite ?expired_lock, E; done.
Qed.

Lemma liveness_same_blocks cb w w0 :
  expired_blocks w = expired_blocks w0 → liveness cb w = liveness cb w0.
Proof.
  intros E. destruct cb as [| weak ? ? | weak ? ? | |]; simpl; try done.
  - unfold expired. by rewrite E.
  - unfold lock, expired. by rewrite E.
Qed.

(** ** [erase_remove_if]: what is kept, what is delivered, what is left of
    the arguments *)

Lemma erase_remove_if_gen v a w w0 :
  expired_blocks w = expired_blocks w0 →
  erase_remove_if v a w =
    (filter (λ cb, survives cb w0 = true) v,
     Nat.iter (length v) moved_from a,
     {| expired_blocks := expired_blocks w0; log := log w ++ deliveries v a w0 |}).
Proof.
  revert a w. induction v as [|cb rest IH]; intros a w E.
  - simpl. rewrite app_nil_r, <- E. by destruct w.
  - cbn [erase_remove_if deliveries length]. rewrite call_spec.
    rewrite (liveness_same_blocks cb w w0 E).
    rewrite (IH (moved_from a)
               (if liveness cb w0 then invoke (user_fn cb) (receiver cb) a w else w))
      by (by destruct (liveness cb w0)).
    rewrite Nat.iter_succ_r. unfold survives at 2.
    destruct (liveness cb w0) eqn:L, (is_once cb) eqn:O; simpl.
    + rewrite filter_cons_False by (unfold survives; rewrite L, O; done).
      by rewrite <- app_assoc.
    + rewrite filter_cons_True by (unfold survives; rewrite L, O; done).
      by rewrite <- app_assoc.
    + rewrite filter_cons_False by (unfold survives; rewrite L, O; done). done.
    + rewrite filter_cons_False by (unfold survives; rewrite L, O; done). done.
Qed.

Lemma erase_remove_if_spec v a w :
  erase_remove_if v a w =
    (filter (λ cb, survives cb w = true) v,
     Nat.iter (length v) moved_from a,
     {| expired_blocks := expired_blocks w; log := log w ++ deliveries v a w |}).
Proof. by apply erase_remove_if_gen. Qed.

(** ** [Raise]: the registry and the log it leaves *)

Lemma foldl_raise_entry l (binds : gmap Z (list LifecycleCallback)) a w w0 :
  expired_blocks w = expired_blocks w0 →
  ∃ binds' a',
    foldl raise_entry (binds, a, w) l =
      (binds', a',
       {| expired_blocks := expired_blocks w0; log := log w ++ raise_deliveries l a w0 |})
    ∧ (∀ k, k ∉ l.*1 → binds' !! k = binds !! k)
    ∧ (NoDup l.*1 → ∀ k v, (k, v) ∈ l → binds' !! k = kept w0 v).
Proof.
  revert binds a w. induction l as [|[k0 v0] l IH]; intros binds a w E.
  - exists binds, a. simpl. rewrite app_nil_r, <- E. split; [by destruct w|].
    split; [done|]. intros _ k v Hin. by apply elem_of_nil in Hin.
  - cbn [foldl raise_entry raise_deliveries fst snd].
    rewrite (erase_remove_if_gen v0 a w w0 E).
    set (binds1 := match filter (λ cb, survives cb w0 = true) v0 with
                   | [] => delete k0 binds
                   | _ :: _ => <[k0 := filter (λ cb, survives cb w0 = true) v0]> binds
                   end).
    destruct (IH binds1 (Nat.iter (length v0) moved_from a)
                {| expired_blocks := expired_blocks w0; log := log w ++ deliveries v0 a w0 |}
                eq_refl) as (binds' & a' & Hfold & Hout & Hin).
    exists binds', a'. cbn [log] in Hfold. rewrite <- app_assoc in Hfold.
    split; [exact Hfold|]. rewrite fmap_cons. cbn [fst].
    assert (Hk0 : binds1 !! k0 = kept w0 v0).
    { unfold binds1, kept. destruct (filter _ v0).
      - apply lookup_delete_eq.
      - apply lookup_insert_eq. }
    assert (Hne : ∀ k, k ≠ k0 → binds1 !! k = binds !! k).
    { intros k Hk. unfold binds1. destruct (filter _ v0).
      - by apply lookup_delete_ne.
      - by apply lookup_insert_ne. }
    split.
    + intros k Hk. apply not_elem_of_cons in Hk as [Hk1 Hk2].
      rewrite (Hout k Hk2). by apply Hne.
    + intros Hnd k v Hkv. apply NoDup_cons in Hnd as [Hk0l Hnd].
      apply elem_of_cons in Hkv as [[= -> ->]|Hkv].
      * by rewrite (Hout k0 Hk0l).
      * by apply Hin.
Qed.

Lemma traverse_elem_of (m : gmap Z (list LifecycleCallback)) k v :
  (k, v) ∈ traverse m ↔ m !! k = Some v.
Proof. rewrite (traverse_perm m). apply elem_of_map_to_list. Qed.

Lemma traverse_NoDup (m : gmap Z (list LifecycleCallback)) : NoDup (traverse m).*1.
Proof. rewrite (traverse_perm m). apply NoDup_fst_map_to_list. Qed.

Lemma traverse_empty : traverse (∅ : gmap Z (list LifecycleCallback)) = [].
Proof. apply Permutation_nil_r. by rewrite traverse_perm, map_to_list_empty. Qed.

(** A pass keeps the name, filters every vector with [survives], drops the
    entries left empty, and appends the deliveries to the log. *)
Lemma Raise_spec e a w :
  Raise e a w =
    (set_Binder e {| Binds := omap (kept w) (Binds (Binder e)) |},
     {| expired_blocks := expired_blocks w;
        log := log w ++ raise_deliveries (traverse (Binds (Binder e))) a w |}).
Proof.
  unfold Raise.
  destruct (foldl_raise_entry (traverse (Binds (Binder e))) (Binds (Binder e)) a w w eq_refl)
    as (binds' & a' & -> & Hout & Hin).
  f_equal. f_equal. f_equal. apply map_eq. intros k. rewrite lookup_omap.
  destruct (Binds (Binder e) !! k) as [v|] eqn:Hk; simpl.
  - apply (Hin (traverse_NoDup _)). by apply traverse_elem_of.
  - rewrite Hout; [done|]. intros ((k' & v) & -> & Hkv)%list_elem_of_fmap.
    apply traverse_elem_of in Hkv. simpl in Hk. congruence.
Qed.

Lemma kept_nonempty w v v' : kept w v = Some v' → v' ≠ [].
Proof. unfold kept. destruct (filter _ v); [done|]. by intros [= <-]. Qed.

Lemma kept_default w (o : option (list LifecycleCallback)) :
  default [] (o ≫= kept w) = filter (λ cb, survives cb w = true) (default [] o).
Proof.
  destruct o as [v|]; simpl; [|done]. unfold kept. by destruct (filter _ v).
Qed.

(** After a pass, a key holds exactly the callbacks that survived it. *)
Lemma Raise_callbacks_of e a w k :
  callbacks_of k (Raise e a w).1 = filter (λ cb, survives cb w = true) (callbacks_of k e).
Proof.
  rewrite Raise_spec. unfold callbacks_of. simpl. rewrite lookup_omap. apply kept_default.
Qed.

(** ** What one operation does to the map *)

Lemma set_Binder_same e : set_Binder e (Binder e) = e.
Proof. by destruct e. Qed.

Lemma EventBinder_eta (b : EventBinder) : {| Binds := Binds b |} = b.
Proof. by destruct b. Qed.

Lemma InternalBind_lookup bound t (b : EventBinder) k :
  Binds (InternalBind bound t b) !! k =
    if decide (t = k) then Some (default [] (Binds b !! t) ++ [bound]) else Binds b !! k.
Proof.
  unfold InternalBind. destruct (Binds b !! t) as [v|] eqn:E; simpl;
    rewrite lookup_insert; destruct (decide (t = k)); done.
Qed.

Lemma InternalBind_callbacks_of e bound t :
  callbacks_of t (set_Binder e (InternalBind bound t (Binder e))) = callbacks_of t e ++ [bound].
Proof. unfold callbacks_of. simpl. by rewrite InternalBind_lookup, decide_True. Qed.

Lemma step_registers op e w t cb :
  registers op w = Some (t, cb) →
  step op e w = Ok (set_Binder e (InternalBind cb t (Binder e)), w).
Proof.
  destruct op; cbn [registers step]; try done;
    unfold Bind_Callback, BindOnce_Callback, Bind_Callback_,
      Bind_Callback_ptr, BindOnce_Callback_ptr, Bind_Callback_ptr_,
      Bind_Callback_weak, BindOnce_Callback_weak, Bind_Callback_shared, Bind_Callback_weak_,
      Bind_Member_ptr, BindOnce_Member_ptr, Bind_Member_ptr_,
      Bind_Member_weak, BindOnce_Member_weak, Bind_Member_shared, BindOnce_Member_shared,
      Bind_Member_weak_, assert;
    repeat match goal with
           | |- context [bool_decide ?P] => destruct (bool_decide P)
           | |- context [shared_bool ?p] => destruct (shared_bool p)
           end;
    try done; by intros [= <- <-].
Qed.

Lemma registers_nonnull op w t cb : registers op w = Some (t, cb) → t ≠ nullptr.
Proof.
  destruct op; cbn [registers]; try done;
    repeat match goal with
           | |- context [bool_decide ?P] => destruct (decide P) as [?|?];
               [rewrite (bool_decide_eq_true_2 P) by done
               |rewrite (bool_decide_eq_false_2 P) by done]
           | |- context [shared_bool ?p] =>
               let E := fresh "E" in destruct (shared_bool p) eqn:E;
               [apply bool_decide_eq_true in E|]
           end;
    try done; by intros [= <- <-].
Qed.

Lemma registers_weak op w t cb weak :
  registers op w = Some (t, cb) → weak_ref cb = Some weak → wk_ptr weak = t.
Proof.
  destruct op; cbn [registers]; try done;
    repeat match goal with
           | |- context [bool_decide ?P] => destruct (bool_decide P)
           | |- context [shared_bool ?p] =>
               let E := fresh "E" in destruct (shared_bool p) eqn:E;
               [apply lock_get in E|]
           end;
    try done; intros [= <- <-]; simpl; try done; by intros [= <-].
Qed.

Lemma Remove_ptr_binds t (b : EventBinder) r :
  Remove_ptr t b = Ok r → Binds r.2 = delete t (Binds b).
Proof.
  unfold Remove_ptr, assert. case_bool_decide; [|done].
  destruct (Binds b !! t) eqn:E; intros [= <-]; simpl; [done|].
  symmetry. by apply delete_id.
Qed.

Lemma step_cases op e w e' w' :
  step op e w = Ok (e', w') →
  (∃ args, (e', w') = Raise e args w)
  ∨ (log w' = log w
     ∧ ((∃ t cb, registers op w = Some (t, cb)
                 ∧ e' = set_Binder e (InternalBind cb t (Binder e)))
        ∨ Binds (Binder e') = Binds (Binder e)
        ∨ (∃ t, Binds (Binder e') = delete t (Binds (Binder e)))
        ∨ Binds (Binder e') = ∅)).
Proof.
  intros Hstep. destruct (registers op w) as [[t cb]|] eqn:Hreg.
  { rewrite (step_registers op e w t cb Hreg) in Hstep. injection Hstep as <- <-.
    right. split; [done|]. left. by exists t, cb. }
  revert Hreg Hstep.
  destruct op; cbn [registers step Checked_map]; try done;
    unfold Bind_Callback_ptr, BindOnce_Callback_ptr, Bind_Callback_ptr_,
      Bind_Callback_weak, BindOnce_Callback_weak, Bind_Callback_shared, Bind_Callback_weak_,
      Bind_Member_ptr, BindOnce_Member_ptr, Bind_Member_ptr_,
      Bind_Member_weak, BindOnce_Member_weak, Bind_Member_shared, BindOnce_Member_shared,
      Bind_Member_weak_, Remove_weak, Remove_shared, IsBound_weak, IsBound_shared,
      IsBound_ptr, Cleanup, assert;
    repeat match goal with
           | |- context [bool_decide ?P] => destruct (bool_decide P)
           | |- context [shared_bool ?p] => destruct (shared_bool p)
           end;
    cbn [Checked_map]; try done; intros _;
    try (intros [= <- <-]; right; split; [done|]; right; by left).
  - destruct (Remove_ptr t (Binder e)) as [r|] eqn:R; [|done].
    intros [= <- <-]. right. split; [done|]. right. right. left.
    exists t. by apply Remove_ptr_binds.
  - destruct (Remove_ptr _ (Binder e)) as [r|] eqn:R; [|done].
    intros [= <- <-]. right. split; [done|]. right. right. left.
    eexists. by apply (Remove_ptr_binds _ _ _ R).
  - destruct (Remove_ptr _ (Binder e)) as [r|] eqn:R; [|done].
    intros [= <- <-]. right. split; [done|]. right. right. left.
    eexists. by apply (Remove_ptr_binds _ _ _ R).
  - intros [= <- <-]. right. split; [done|]. right. right. by right.
  - intros [= E]. left. by exists args.
Qed.

(** The callbacks an operation other than [Raise] leaves under a key were
    there before, or are the one the operation registers under that key. *)
Lemma elem_of_callbacks_of_step op e w e' w' k cb :
  step op e w = Ok (e', w') →
  cb ∈ callbacks_of k e' →
  cb ∈ callbacks_of k e ∨ registers op w = Some (k, cb).
Proof.
  intros Hstep Hcb.
  destruct (step_cases op e w e' w' Hstep)
    as [[args E]|[_ [(t & cb0 & Hreg & ->)|[Hsame|[[t Hdel]|Hempty]]]]].
  - left. apply (f_equal fst) in E. simpl in E. subst e'.
    rewrite Raise_callbacks_of in Hcb. by apply list_elem_of_filter in Hcb as [_ ?].
  - unfold callbacks_of in *. simpl in Hcb. rewrite InternalBind_lookup in Hcb.
    destruct (decide (t = k)) as [->|]; [|by left].
    simpl in Hcb. apply elem_of_app in Hcb as [Hcb|Hcb]; [by left|].
    apply list_elem_of_singleton in Hcb as ->. by right.
  - left. unfold callbacks_of in *. by rewrite <- Hsame.
  - left. unfold callbacks_of in *. rewrite Hdel in Hcb.
    destruct (decide (t = k)) as [->|].
    + rewrite lookup_delete_eq in Hcb. by apply elem_of_nil in Hcb.
    + by rewrite lookup_delete_ne in Hcb.
  - unfold callbacks_of in Hcb. rewrite Hempty, lookup_empty in Hcb.
    by apply elem_of_nil in Hcb.
Qed.

(** ** Reachable states: no empty vector, no null key *)

Lemma no_dangling_InternalBind e bound t :
  no_dangling_keys e → no_dangling_keys (set_Binder e (InternalBind bound t (Binder e))).
Proof.
  intros I k v. simpl. rewrite InternalBind_lookup. destruct (decide (t = k)).
  - intros [= <-]. by destruct (default [] _).
  - apply I.
Qed.

Lemma no_dangling_same e e' :
  Binds (Binder e') = Binds (Binder e) → no_dangling_keys e → no_dangling_keys e'.
Proof. unfold no_dangling_keys. by intros ->. Qed.

Lemma no_dangling_delete e e' k :
  Binds (Binder e') = delete k (Binds (Binder e)) → no_dangling_keys e → no_dangling_keys e'.
Proof.
  intros E I k' v. rewrite E. intros [_ Hk]%lookup_delete_Some. by apply (I k').
Qed.

Lemma no_dangling_Raise e a w : no_dangling_keys (Raise e a w).1.
Proof.
  rewrite Raise_spec. intros k v. simpl. rewrite lookup_omap.
  destruct (Binds (Binder e) !! k) as [v0|]; simpl; [|done]. apply kept_nonempty.
Qed.

Lemma no_dangling_step op e w e' w' :
  no_dangling_keys e → step op e w = Ok (e', w') → no_dangling_keys e'.
Proof.
  intros I Hstep.
  destruct (step_cases op e w e' w' Hstep)
    as [[args E]|[_ [(t & cb & _ & ->)|[Hsame|[[t Hdel]|Hempty]]]]].
  - apply (f_equal fst) in E. simpl in E. subst e'. apply no_dangling_Raise.
  - by apply no_dangling_InternalBind.
  - by apply (no_dangling_same e).
  - by apply (no_dangling_delete e e' t).
  - intros k v. by rewrite Hempty, lookup_empty.
Qed.

Lemma reachable_no_dangling e w : reachable e w → no_dangling_keys e.
Proof.
  induction 1 as [name w|op e e' w w' _ IH Hstep].
  - intros k v. simpl. by rewrite lookup_empty.
  - by apply (no_dangling_step op e w e' w').
Qed.

(** [nullptr] is never a key of the map. *)
Lemma reachable_nonnull e w : reachable e w → Binds (Binder e) !! nullptr = None.
Proof.
  induction 1 as [name w|op e e' w w' _ IH Hstep]; [apply lookup_empty|].
  destruct (step_cases op e w e' w' Hstep)
    as [[args E]|[_ [(t & cb & Hreg & ->)|[->|[[t ->]| ->]]]]]; try done.
  - apply (f_equal fst) in E. simpl in E. subst e'. rewrite Raise_spec. simpl.
    by rewrite lookup_omap, IH.
  - simpl. rewrite InternalBind_lookup, decide_False; [done|].
    by apply (registers_nonnull op w t cb).
  - apply lookup_delete_None. by right.
Qed.

(** A closure holding a weak reference is registered under the address that
    reference points to, which is not null: its liveness test is whether the
    reference has expired. *)
Lemma reachable_weak_key e w k cb weak :
  reachable e w → cb ∈ callbacks_of k e → weak_ref cb = Some weak →
  wk_ptr weak = k ∧ k ≠ nullptr.
Proof.
  intros R. revert k cb weak.
  induction R as [name w|op e e' w w' _ IH Hstep]; intros k cb weak Hcb Hweak.
  - unfold callbacks_of in Hcb. simpl in Hcb. rewrite lookup_empty in Hcb.
    by apply elem_of_nil in Hcb.
  - destruct (elem_of_callbacks_of_step op e w e' w' k cb Hstep Hcb) as [Hin|Hreg].
    + by apply (IH k cb weak).
    + split; [by apply (registers_weak op w k cb weak)|by apply (registers_nonnull op w k cb)].
Qed.

Lemma run_reachable ops e w e' w' :
  reachable e w → run ops e w = Ok (e', w') → reachable e' w'.
Proof.
  revert e w. induction ops as [|op ops IH]; intros e w R; simpl.
  - by intros [= <- <-].
  - destruct (step op e w) as [[e1 w1]|] eqn:S; [|done].
    apply IH. by apply (reachable_step op e e1 w w1).
Qed.

Lemma no_dangling_dom e k :
  no_dangling_keys e → k ∈ dom (Binds (Binder e)) ↔ callbacks_of k e ≠ [].
Proof.
  intros I. rewrite elem_of_dom. unfold callbacks_of.
  destruct (Binds (Binder e) !! k) as [v|] eqn:E; simpl.
  - split; [intros _; by apply (I k)|eauto].
  - split; [by intros [? ?]|done].
Qed.

(** A key is still in the map after a pass exactly when one of its
    callbacks survived. *)
Lemma Raise_dom e a w k :
  k ∈ dom (Binds (Binder (Raise e a w).1)) ↔
  ∃ cb, cb ∈ callbacks_of k e ∧ survives cb w = true.
Proof.
  rewrite (no_dangling_dom _ k (no_dangling_Raise e a w)), Raise_callbacks_of.
  split.
  - destruct (filter _ _) as [|cb l] eqn:E; [done|]. intros _. exists cb.
    assert (Hin : cb ∈ filter (λ cb, survives cb w = true) (callbacks_of k e))
      by (rewrite E; left).
    apply list_elem_of_filter in Hin as [? ?]. done.
  - intros (cb & Hin & S) E.
    assert (Hf : cb ∈ filter (λ cb, survives cb w = true) (callbacks_of k e))
      by (by apply list_elem_of_filter).
    rewrite E in Hf. by apply elem_of_nil in Hf.
Qed.

(** ** Who is invoked by a pass *)

Lemma mjoin_cons {T : Type} (x : list T) (l : list (list T)) : mjoin (x :: l) = x ++ mjoin l.
Proof. done. Qed.

Lemma filter_nil_intro {T : Type} (P : T → Prop) `{!∀ x, Decision (P x)} (l : list T) :
  (∀ x, x ∈ l → ¬ P x) → filter P l = [].
Proof.
  intros HP. destruct (filter P l) as [|x l'] eqn:E; [done|].
  assert (Hx : x ∈ filter P l) by (rewrite E; left).
  apply list_elem_of_filter in Hx as [Px Hx]. by destruct (HP x Hx).
Qed.

Lemma times_invoked_app f (l1 l2 : list (@Invocation A)) :
  times_invoked f (l1 ++ l2) = (times_invoked f l1 + times_invoked f l2)%nat.
Proof. unfold times_invoked. by rewrite filter_app, length_app. Qed.

Lemma deliveries_times_invoked f v a w :
  times_invoked f (deliveries v a w) =
    length (filter (λ cb, user_fn cb = f ∧ liveness cb w = true) v).
Proof.
  revert a. induction v as [|cb v IH]; intros a; [done|].
  cbn [deliveries]. rewrite times_invoked_app, IH, filter_cons.
  destruct (liveness cb w) eqn:L.
  - destruct (decide (user_fn cb = f)) as [E|E].
    + rewrite decide_True by done. unfold times_invoked.
      rewrite filter_cons_True by done. done.
    + rewrite decide_False by (by intros [? ?]). unfold times_invoked.
      rewrite filter_cons_False by done. done.
  - rewrite decide_False by (by intros [? ?]). done.
Qed.

Lemma raise_deliveries_times_invoked f (l : list (Z * list LifecycleCallback)) a w :
  times_invoked f (raise_deliveries l a w) =
    length (filter (λ cb, user_fn cb = f ∧ liveness cb w = true) (mjoin l.*2)).
Proof.
  revert a. induction l as [|[k v] l IH]; intros a; [done|].
  cbn [raise_deliveries snd]. rewrite fmap_cons. cbn [snd mjoin list_join].
  by rewrite times_invoked_app, deliveries_times_invoked, IH, filter_app, length_app.
Qed.

(** A pass invokes user code [f] once for every registered callback that
    wraps [f] and whose liveness test passes. *)
Lemma Raise_times_invoked e a w f :
  times_invoked f (log (Raise e a w).2) =
    (times_invoked f (log w)
     + length (filter (λ cb, user_fn cb = f ∧ liveness cb w = true) (all_callbacks e)))%nat.
Proof.
  rewrite Raise_spec. cbn [snd log].
  rewrite times_invoked_app, raise_deliveries_times_invoked. f_equal.
  unfold all_callbacks. by rewrite (traverse_perm (Binds (Binder e))).
Qed.

Lemma all_callbacks_same e e' :
  Binds (Binder e') = Binds (Binder e) → all_callbacks e' = all_callbacks e.
Proof. unfold all_callbacks. by intros ->. Qed.

Lemma elem_of_all_callbacks e cb :
  cb ∈ all_callbacks e ↔ ∃ k, cb ∈ callbacks_of k e.
Proof.
  unfold all_callbacks, callbacks_of. rewrite list_elem_of_join. split.
  - intros (v & Hcb & ((k & v') & -> & Hkv)%list_elem_of_fmap).
    apply elem_of_map_to_list in Hkv. exists k. simpl in *. by rewrite Hkv.
  - intros (k & Hcb). destruct (Binds (Binder e) !! k) as [v|] eqn:E; simpl in Hcb.
    + exists v. split; [done|]. apply list_elem_of_fmap. exists (k, v).
      split; [done|]. by apply elem_of_map_to_list.
    + by apply elem_of_nil in Hcb.
Qed.

(** The callbacks left by a pass are those that survived it. *)
Lemma elem_of_all_callbacks_Raise e a w cb :
  cb ∈ all_callbacks (Raise e a w).1 ↔ cb ∈ all_callbacks e ∧ survives cb w = true.
Proof.
  rewrite !elem_of_all_callbacks. split.
  - intros (k & Hcb). rewrite Raise_callbacks_of in Hcb.
    apply list_elem_of_filter in Hcb as [? ?]. eauto.
  - intros ((k & Hcb) & S). exists k. rewrite Raise_callbacks_of.
    by apply list_elem_of_filter.
Qed.

Lemma elem_of_all_callbacks_step op e w e' w' cb :
  step op e w = Ok (e', w') →
  cb ∈ all_callbacks e' →
  cb ∈ all_callbacks e ∨ ∃ t, registers op w = Some (t, cb).
Proof.
  intros Hstep [k Hcb]%elem_of_all_callbacks.
  destruct (elem_of_callbacks_of_step op e w e' w' k cb Hstep Hcb) as [Hin|Hreg].
  - left. apply elem_of_all_callbacks. by exists k.
  - right. by exists k.
Qed.

Lemma reachable_liveness e w cb weak :
  reachable e w → cb ∈ all_callbacks e → weak_ref cb = Some weak →
  liveness cb w = negb (expired weak w).
Proof.
  intros R [k Hcb]%elem_of_all_callbacks Hweak.
  destruct (reachable_weak_key e w k cb weak R Hcb Hweak) as [Hk Hnull].
  destruct cb; simpl in *; try done; injection Hweak as ->; [done|].
  rewrite expired_lock, bool_decide_eq_true_2, andb_true_r; [done|]. by rewrite Hk.
Qed.

(** ** C1: subscriptions through an expired weak reference *)

Lemma IsBound_weak_expired weak w (b : EventBinder) :
  expired weak w = true → IsBound_weak weak w b = Ok false.
Proof. intros E. unfold IsBound_weak. by rewrite expired_lock, E. Qed.

Lemma Size_dom e : Size e = to_int (to_size_t (Z.of_nat (size (dom (Binds (Binder e)))))).
Proof. unfold Size. by rewrite size_dom. Qed.

(** C1 (amended). Let a callback bound through a weak reference be registered
    under key [k], and let the referenced object be destroyed.  Then the
    closure reports dead without running user code; the next [Raise] leaves
    it out of the registry and invokes its user code only on behalf of
    other, live subscriptions of the same code (not at all when there are
    none); afterwards [IsBound] on the weak reference is [false]; and [Size],
    which counts the keys of the map, still counts [k] exactly when some
    callback registered under [k] survived the pass. *)
Theorem C1_expired_weak_subscription_evicted e w args cb weak k :
  cb ∈ callbacks_of k e →
  weak_ref cb = Some weak →
  expired weak w = true →
  (∀ a, call cb a w = (false, w))
  ∧ (cb ∉ all_callbacks (Raise e args w).1)
  ∧ times_invoked (user_fn cb) (log (Raise e args w).2) =
      (times_invoked (user_fn cb) (log w)
       + length (filter (λ cb', user_fn cb' = user_fn cb ∧ liveness cb' w = true)
                   (filter (λ cb', cb' ≠ cb) (all_callbacks e))))%nat
  ∧ IsBound_weak weak (Raise e args w).2 (Binder (Raise e args w).1) = Ok false
  ∧ Size (Raise e args w).1 =
      to_int (to_size_t (Z.of_nat (size (dom (Binds (Binder (Raise e args w).1))))))
  ∧ (k ∈ dom (Binds (Binder (Raise e args w).1)) ↔
     ∃ cb', cb' ∈ callbacks_of k e ∧ survives cb' w = true).
Proof.
  intros Hin Hweak Hexp.
  pose proof (expired_weak_dead cb weak w Hweak Hexp) as Hdead.
  repeat split.
  - intros a. by rewrite call_spec, Hdead.
  - rewrite elem_of_all_callbacks_Raise. unfold survives. rewrite Hdead. by intros [_ ?].
  - rewrite Raise_times_invoked. f_equal.
    rewrite list_filter_filter. f_equal. apply list_filter_iff. intros cb'. split.
    + intros [E L]. repeat split; try done. intros ->. congruence.
    + by intros [[? ?] ?].
  - apply IsBound_weak_expired. by rewrite Raise_spec.
  - apply Size_dom.
  - by apply Raise_dom.
  - by apply Raise_dom.
Qed.

(** ** C2: fire-once subscriptions *)

(** User code that no registered callback wraps is never invoked. *)
Lemma Raise_each_unbound f l e w :
  (∀ cb, cb ∈ all_callbacks e → user_fn cb ≠ f) →
  times_invoked f (log (Raise_each l e w).2) = times_invoked f (log w).
Proof.
  revert e w. induction l as [|a l IH]; intros e w Hf; [done|].
  cbn [Raise_each]. destruct (Raise e a w) as [e' w'] eqn:R.
  rewrite IH.
  - change w' with (e', w').2. rewrite <- R, Raise_times_invoked.
    rewrite filter_nil_intro; [simpl; lia|]. intros cb Hcb [E _]. by apply (Hf cb).
  - intros cb Hcb. apply Hf. change e' with (e', w').1 in Hcb. rewrite <- R in Hcb.
    by apply elem_of_all_callbacks_Raise in Hcb as [? _].
Qed.

(** User code that is not registered, and that the operations run do not
    register, is not invoked, whatever the operations are. *)
Lemma run_unbound f ops e w e' w' :
  (∀ cb, cb ∈ all_callbacks e → user_fn cb ≠ f) →
  Forall (λ op, ∀ w0 t cb, registers op w0 = Some (t, cb) → user_fn cb ≠ f) ops →
  run ops e w = Ok (e', w') →
  times_invoked f (log w') = times_invoked f (log w).
Proof.
  intros Hf Hops. revert e w Hf. induction Hops as [|op ops Hop _ IH]; intros e w Hf.
  - by intros [= <- <-].
  - cbn [run]. destruct (step op e w) as [[e1 w1]|] eqn:Hstep; [|done]. intros Hrun.
    assert (Hf1 : ∀ cb, cb ∈ all_callbacks e1 → user_fn cb ≠ f).
    { intros cb Hcb.
      destruct (elem_of_all_callbacks_step op e w e1 w1 cb Hstep Hcb) as [Hin|[t Hreg]].
      - by apply Hf.
      - by apply (Hop w t cb). }
    rewrite (IH e1 w1 Hf1 Hrun).
    destruct (step_cases op e w e1 w1 Hstep) as [[args E]|[-> _]]; [|done].
    apply (f_equal snd) in E. simpl in E. subst w1.
    rewrite Raise_times_invoked, filter_nil_intro; [simpl; lia|].
    intros cb Hcb [E _]. by apply (Hf cb).
Qed.

(** C2. Let every registered callback that wraps user code [f] be
    fire-once, whichever closure of the binder it is, and call them the
    subscriptions of [f].  The first [Raise] invokes [f] once for each
    subscription whose liveness test passes (the test always passes for a
    closure bound with a raw pointer or without an object, and in a
    reachable state it passes for a weak reference exactly when the
    reference has not expired) and removes all of them, in that same pass.  Whatever follows, be it further calls of
    [Raise] or any operations that do not bind [f] anew, [f] is not invoked
    again.  In particular a single fire-once subscription is invoked
    exactly once when its test passes at the first [Raise], and never when it
    fails.  No fire-once callback at all is left in the registry by a
    pass. *)
Theorem C2_once_invoked_exactly_once e w f args later :
  Forall (λ cb, is_once cb = true) (filter (λ cb, user_fn cb = f) (all_callbacks e)) →
  times_invoked f (log (Raise e args w).2) =
    (times_invoked f (log w)
     + length (filter (λ cb, liveness cb w = true)
                 (filter (λ cb, user_fn cb = f) (all_callbacks e))))%nat
  ∧ times_invoked f (log (Raise_each (args :: later) e w).2) =
      times_invoked f (log (Raise e args w).2)
  ∧ (∀ cb, filter (λ cb', user_fn cb' = f) (all_callbacks e) = [cb] →
       times_invoked f (log (Raise_each (args :: later) e w).2) =
         (times_invoked f (log w) + if liveness cb w then 1 else 0)%nat)
  ∧ (∀ ops e' w',
       Forall (λ op, ∀ w0 t cb, registers op w0 = Some (t, cb) → user_fn cb ≠ f) ops →
       run ops (Raise e args w).1 (Raise e args w).2 = Ok (e', w') →
       times_invoked f (log w') = times_invoked f (log (Raise e args w).2))
  ∧ filter (λ cb, user_fn cb = f) (all_callbacks (Raise e args w).1) = []
  ∧ (∀ cb, cb ∈ all_callbacks (Raise e args w).1 → is_once cb = false)
  ∧ (∀ cb, weak_ref cb = None → liveness cb w = true)
  ∧ (reachable e w → ∀ cb weak, cb ∈ all_callbacks e → weak_ref cb = Some weak →
       liveness cb w = negb (expired weak w)).
Proof.
  intros Honce.
  assert (Hfirst : times_invoked f (log (Raise e args w).2) =
            (times_invoked f (log w)
             + length (filter (λ cb, liveness cb w = true)
                         (filter (λ cb, user_fn cb = f) (all_callbacks e))))%nat).
  { rewrite Raise_times_invoked. f_equal. f_equal.
    rewrite list_filter_filter. apply list_filter_iff. intros cb. tauto. }
  assert (Hgone : ∀ cb, cb ∈ all_callbacks (Raise e args w).1 → user_fn cb ≠ f).
  { intros cb [Hin S]%elem_of_all_callbacks_Raise E.
    assert (Hcb : cb ∈ filter (λ cb, user_fn cb = f) (all_callbacks e))
      by (by apply list_elem_of_filter).
    rewrite Forall_forall in Honce. apply Honce in Hcb.
    unfold survives in S. rewrite Hcb in S. by destruct (liveness cb w). }
  assert (Hall : times_invoked f (log (Raise_each (args :: later) e w).2) =
            times_invoked f (log (Raise e args w).2)).
  { cbn [Raise_each]. destruct (Raise e args w) as [e1 w1] eqn:R.
    apply Raise_each_unbound. exact Hgone. }
  split; [done|]. split; [done|]. split; [|split; [|split; [|split; [|split]]]].
  - intros cb Honly. rewrite Hall, Hfirst, Honly, filter_cons, filter_nil.
    destruct (liveness cb w); [by rewrite decide_True|by rewrite decide_False].
  - intros ops e' w' Hops Hrun. by apply (run_unbound f ops _ _ e' w' Hgone Hops).
  - apply filter_nil_intro. intros cb Hcb E. by apply (Hgone cb).
  - intros cb [_ S]%elem_of_all_callbacks_Raise. unfold survives in S.
    apply andb_true_iff in S as [_ S]. by apply negb_true_iff in S.
  - intros cb Hw. by destruct cb.
  - intros R cb weak. by apply reachable_liveness.
Qed.

(** ** C3: order of invocation within a key *)

Lemma deliveries_fns v a w :
  inv_fn <$> deliveries v a w = user_fn <$> filter (λ cb, liveness cb w = true) v.
Proof.
  revert a. induction v as [|cb v IH]; intros a; [done|].
  cbn [deliveries]. rewrite fmap_app, IH, filter_cons.
  destruct (liveness cb w); [by rewrite decide_True|by rewrite decide_False].
Qed.

Lemma delivery_shift a w m n cb :
  delivery (Nat.iter m moved_from a) w n cb = delivery a w (m + n) cb.
Proof. unfold delivery. by rewrite (Nat.add_comm m n), Nat.iter_add. Qed.

Lemma deliveries_imap v a w : deliveries v a w = mjoin (imap (delivery a w) v).
Proof.
  revert a. induction v as [|cb v IH]; intros a; [done|].
  cbn [deliveries]. rewrite imap_cons, mjoin_cons, IH. f_equal. f_equal.
  apply imap_ext. intros n cb' _. apply (delivery_shift a w 1 n cb').
Qed.

Lemma raise_deliveries_imap (l : list (Z * list LifecycleCallback)) a w :
  raise_deliveries l a w = mjoin (imap (delivery a w) (mjoin l.*2)).
Proof.
  revert a. induction l as [|[k v] l IH]; intros a; [done|].
  cbn [raise_deliveries snd]. rewrite fmap_cons, mjoin_cons, imap_app, join_app. cbn [snd].
  rewrite deliveries_imap, IH. f_equal. f_equal.
  apply imap_ext. intros n cb' _. apply delivery_shift.
Qed.

(** The entries a pass visits, split at the entry of key [t]: those visited
    before it and those visited after it are the other entries of the map,
    each once. *)
Lemma traverse_split_key (m : gmap Z (list LifecycleCallback)) t :
  ∃ l1 l2,
    mjoin (traverse m).*2 = mjoin l1.*2 ++ default [] (m !! t) ++ mjoin l2.*2
    ∧ NoDup (l1 ++ l2).*1
    ∧ ∀ k v, (k, v) ∈ l1 ++ l2 ↔ k ≠ t ∧ m !! k = Some v.
Proof.
  destruct (m !! t) as [v|] eqn:E.
  - pose proof E as Hs. apply traverse_elem_of, list_elem_of_split in Hs as (l1 & l2 & Htr).
    exists l1, l2. pose proof (traverse_NoDup m) as Hnd.
    rewrite Htr, fmap_app, fmap_cons in Hnd. cbn [fst] in Hnd.
    apply NoDup_app in Hnd as (N1 & N12 & N2). apply NoDup_cons in N2 as [Ht2 N2].
    assert (Ht1 : t ∉ l1.*1) by (intros Hin; apply (N12 t Hin); left).
    split; [by rewrite Htr, fmap_app, fmap_cons, join_app, mjoin_cons|]. split.
    + rewrite fmap_app. apply NoDup_app. split; [done|]. split; [|done].
      intros x Hx Hx2. apply (N12 x Hx). by right.
    + intros k v'. split.
      * intros Hin. split.
        -- intros ->. apply elem_of_app in Hin as [Hin|Hin].
           ++ apply Ht1, list_elem_of_fmap. by exists (t, v').
           ++ apply Ht2, list_elem_of_fmap. by exists (t, v').
        -- apply traverse_elem_of. rewrite Htr.
           apply elem_of_app in Hin as [Hin|Hin]; apply elem_of_app; [by left|].
           right. by right.
      * intros [Hk Hv]. apply traverse_elem_of in Hv. rewrite Htr in Hv.
        apply elem_of_app in Hv as [Hv|Hv]; [apply elem_of_app; by left|].
        apply elem_of_cons in Hv as [[= ? ?]|Hv]; [done|]. apply elem_of_app. by right.
  - exists (traverse m), []. cbn [default fmap list_fmap mjoin list_join app].
    rewrite !app_nil_r. split; [done|]. split; [apply traverse_NoDup|].
    intros k v. rewrite traverse_elem_of. split; [|by intros [_ ?]].
    intros Hv. split; [|done]. intros ->. congruence.
Qed.

Lemma imap_delivery_app a w (p q : list LifecycleCallback) :
  mjoin (imap (delivery a w) (p ++ q)) =
    mjoin (imap (delivery a w) p)
    ++ mjoin (imap (delivery (Nat.iter (length p) moved_from a) w) q).
Proof.
  rewrite imap_app, join_app. f_equal. f_equal.
  apply imap_ext. intros n cb _. symmetry. apply delivery_shift.
Qed.

(** The whole of what a pass adds to the log, with the stretch owed to the
    callbacks of key [k] set apart. *)
Lemma Raise_log_split e a w k :
  ∃ l1 l2,
    NoDup (l1 ++ l2).*1
    ∧ (∀ k' v, (k', v) ∈ l1 ++ l2 ↔ k' ≠ k ∧ Binds (Binder e) !! k' = Some v)
    ∧ log (Raise e a w).2 =
        log w
        ++ mjoin (imap (delivery a w) (mjoin l1.*2))
        ++ mjoin (imap (delivery (Nat.iter (length (mjoin l1.*2)) moved_from a) w)
                    (callbacks_of k e))
        ++ mjoin (imap (delivery (Nat.iter (length (mjoin l1.*2 ++ callbacks_of k e))
                                      moved_from a) w)
                    (mjoin l2.*2)).
Proof.
  destruct (traverse_split_key (Binds (Binder e)) k) as (l1 & l2 & Hv & Hnd & Hin).
  exists l1, l2. split; [done|]. split; [done|].
  rewrite Raise_spec. cbn [snd log]. rewrite raise_deliveries_imap, Hv.
  fold (callbacks_of k e). rewrite !imap_delivery_app. do 3 f_equal.
  by rewrite length_app, (Nat.add_comm (length (mjoin l1.*2))), Nat.iter_add.
Qed.

(** C3. Run bind operations that all register under the same key [t]
    (whatever their overload).  None aborts, and the key's vector is extended
    by their closures in the order the operations ran.  A following [Raise]
    visits every other entry of the map once, some before and some after the
    entry of [t], and adds to the log exactly this: what the callbacks of the
    entries visited before deliver, then what the callbacks of [t] deliver,
    front to back in bind order, then what the callbacks of the entries
    visited after deliver.  Every callback is called once and runs its user
    code when its liveness test passes, so the user code invoked in the
    stretch of [t] is, in order, that of the callbacks of [t] whose test
    passes. *)
Theorem C3_same_key_bind_order ops cbs t e w :
  Forall2 (λ op cb, registers op w = Some (t, cb)) ops cbs →
  ∃ e', run ops e w = Ok (e', w)
    ∧ callbacks_of t e' = callbacks_of t e ++ cbs
    ∧ ∀ args, ∃ l1 l2,
        NoDup (l1 ++ l2).*1
        ∧ (∀ k v, (k, v) ∈ l1 ++ l2 ↔ k ≠ t ∧ Binds (Binder e') !! k = Some v)
        ∧ log (Raise e' args w).2 =
            log w
            ++ mjoin (imap (delivery args w) (mjoin l1.*2))
            ++ mjoin (imap (delivery (Nat.iter (length (mjoin l1.*2)) moved_from args) w)
                        (callbacks_of t e ++ cbs))
            ++ mjoin (imap (delivery
                              (Nat.iter (length (mjoin l1.*2 ++ callbacks_of t e ++ cbs))
                                 moved_from args) w)
                        (mjoin l2.*2))
        ∧ inv_fn <$> mjoin (imap (delivery (Nat.iter (length (mjoin l1.*2)) moved_from args) w)
                              (callbacks_of t e ++ cbs)) =
            user_fn <$> filter (λ cb, liveness cb w = true) (callbacks_of t e ++ cbs).
Proof.
  intros Hreg.
  assert (Hrun : ∃ e', run ops e w = Ok (e', w)
                   ∧ callbacks_of t e' = callbacks_of t e ++ cbs).
  { revert e. induction Hreg as [|op cb ops cbs Hop _ IH]; intros e.
    - exists e. by rewrite app_nil_r.
    - destruct (IH (set_Binder e (InternalBind cb t (Binder e)))) as (e' & Hrun & Hcbs).
      exists e'. cbn [run]. rewrite (step_registers op e w t cb Hop). split; [done|].
      by rewrite Hcbs, InternalBind_callbacks_of, <- app_assoc. }
  destruct Hrun as (e' & Hrun & Hcbs). exists e'. split; [done|]. split; [done|].
  intros args. destruct (Raise_log_split e' args w t) as (l1 & l2 & Hnd & Hin & Hlog).
  exists l1, l2. rewrite <- Hcbs. split; [done|]. split; [done|]. split; [done|].
  rewrite <- deliveries_imap. apply deliveries_fns.
Qed.

(** ** C4: a key is in the map exactly when it has callbacks *)

(** C4. In every state reached from a new event by the public operations,
    a key is in the map if and only if its vector of callbacks is not
    empty; every operation that returns keeps it so; and a pass of [Raise]
    in which no callback of a key survives leaves that key out of the map. *)
Theorem C4_key_present_iff_sequence_nonempty e w :
  reachable e w →
  (∀ k, k ∈ dom (Binds (Binder e)) ↔ callbacks_of k e ≠ [])
  ∧ (∀ op e' w', step op e w = Ok (e', w') →
       ∀ k, k ∈ dom (Binds (Binder e')) ↔ callbacks_of k e' ≠ [])
  ∧ (∀ args k, (∀ cb, cb ∈ callbacks_of k e → survives cb w = false) →
       (k ∉ dom (Binds (Binder (Raise e args w).1)))
       ∧ callbacks_of k (Raise e args w).1 = []).
Proof.
  intros R. pose proof (reachable_no_dangling e w R) as I. split; [|split].
  - intros k. by apply no_dangling_dom.
  - intros op e' w' S k. apply no_dangling_dom. by apply (no_dangling_step op e w e' w').
  - intros args k Hdead. split.
    + rewrite Raise_dom. intros (cb & Hin & S). rewrite (Hdead cb Hin) in S. done.
    + rewrite Raise_callbacks_of. destruct (filter _ _) as [|cb l] eqn:E; [done|].
      assert (Hin : cb ∈ filter (λ cb, survives cb w = true) (callbacks_of k e))
        by (rewrite E; left).
      apply list_elem_of_filter in Hin as [S Hin]. rewrite (Hdead cb Hin) in S. done.
Qed.

(** ** C5: the arguments each listener receives *)

Lemma deliveries_app v1 v2 a w :
  deliveries (v1 ++ v2) a w =
    deliveries v1 a w ++ deliveries v2 (Nat.iter (length v1) moved_from a) w.
Proof.
  revert a. induction v1 as [|cb v1 IH]; intros a; [done|].
  cbn [app deliveries length]. by rewrite IH, Nat.iter_succ_r, app_assoc.
Qed.

(** The [n]-th callback of a vector (from 0) is called with the arguments
    moved from [n] times, whether or not its liveness test passes. *)
Lemma deliveries_args v a w i :
  i ∈ deliveries v a w → ∃ n, (n < length v)%nat ∧ inv_args i = Nat.iter n moved_from a.
Proof.
  revert a. induction v as [|cb v IH]; intros a; cbn [deliveries].
  - by intros ?%elem_of_nil.
  - intros [Hi|Hi]%elem_of_app.
    + exists 0%nat. destruct (liveness cb w); [|by apply elem_of_nil in Hi].
      apply list_elem_of_singleton in Hi as ->. simpl. split; [lia|done].
    + destruct (IH _ Hi) as (n & Hn & ->). exists (S n).
      rewrite Nat.iter_succ_r. simpl. split; [lia|done].
Qed.

Lemma iter_moved_from_trivial n a : trivially_copyable A → Nat.iter n moved_from a = a.
Proof. intros T. induction n as [|n IH]; [done|]. simpl. by rewrite IH, T. Qed.

(** When moving the arguments copies them, every listener of a pass is
    handed the arguments [Raise] was called with. *)
Lemma Raise_args_trivially_copyable e a w i :
  trivially_copyable A →
  i ∈ raise_deliveries (traverse (Binds (Binder e))) a w → inv_args i = a.
Proof.
  intros T. generalize (traverse (Binds (Binder e))). intros l. revert a.
  induction l as [|it l IH]; intros a; cbn [raise_deliveries].
  - by intros ?%elem_of_nil.
  - intros [Hi|Hi]%elem_of_app.
    + destruct (deliveries_args _ _ _ _ Hi) as (n & _ & ->). by apply iter_moved_from_trivial.
    + rewrite (iter_moved_from_trivial _ _ T) in Hi. by apply IH.
Qed.

(** ** C6: binding with a null pointer, with an expired weak reference *)

(** C6. Every overload that binds with a raw pointer aborts on [nullptr]
    with the assertion "Cannot bind to a null pointer"; every overload that
    binds through a weak reference returns normally when the reference is
    expired and leaves the event, hence its registry, as it was. *)
Theorem C6_null_pointer_asserts_expired_weak_is_noop e w f weak :
  expired weak w = true →
  (step (Do_Bind_Callback_ptr f nullptr) e w = AssertionFailed "Cannot bind to a null pointer"
   ∧ step (Do_BindOnce_Callback_ptr f nullptr) e w = AssertionFailed "Cannot bind to a null pointer"
   ∧ step (Do_Bind_Member_ptr f nullptr) e w = AssertionFailed "Cannot bind to a null pointer"
   ∧ step (Do_BindOnce_Member_ptr f nullptr) e w = AssertionFailed "Cannot bind to a null pointer")
  ∧ (step (Do_Bind_Callback_weak f weak) e w = Ok (e, w)
     ∧ step (Do_BindOnce_Callback_weak f weak) e w = Ok (e, w)
     ∧ step (Do_Bind_Member_weak f weak) e w = Ok (e, w)
     ∧ step (Do_BindOnce_Member_weak f weak) e w = Ok (e, w))
  ∧ (∀ bindOnce,
       Bind_Callback_weak_ f weak bindOnce w (Binder e) = Binder e
       ∧ Bind_Member_weak_ f weak bindOnce w (Binder e) = Binder e).
Proof.
  intros E. pose proof (lock_expired weak w E) as L. split; [by repeat split|].
  split.
  - cbn [step]. unfold Bind_Callback_weak, BindOnce_Callback_weak, Bind_Callback_weak_,
      Bind_Member_weak, BindOnce_Member_weak, Bind_Member_weak_.
    rewrite L, set_Binder_same. done.
  - intros bindOnce. unfold Bind_Callback_weak_, Bind_Member_weak_. by rewrite L.
Qed.

(** ** C7: [Remove] *)

Lemma Remove_ptr_spec t (b : EventBinder) :
  t ≠ nullptr →
  Remove_ptr t b =
    Ok (bool_decide (t ∈ dom (Binds b)), {| Binds := delete t (Binds b) |}).
Proof.
  intros Ht. unfold Remove_ptr, assert. rewrite bool_decide_eq_true_2 by done.
  destruct (Binds b !! t) as [v|] eqn:E.
  - rewrite bool_decide_eq_true_2; [done|]. apply elem_of_dom. eauto.
  - rewrite bool_decide_eq_false_2 by (by apply not_elem_of_dom).
    by rewrite delete_id, EventBinder_eta.
Qed.

(** C7. In a state reached by the public operations: [Remove] of a non-null
    pointer erases the whole vector of that key and returns whether the key
    was in the map; for a key that is in the map, [Remove] returns [true]
    and a second [Remove] returns [false]; [Remove] of a non-null key that
    is not in the map, and [Remove] through an expired weak reference, return
    [false] and leave the registry as it was; [Remove] through a live weak
    reference is [Remove] of the pointer it locks to.  None of these
    aborts. *)
Theorem C7_Remove_reports_presence e w t ptr :
  reachable e w →
  (t ≠ nullptr →
     Remove_ptr t (Binder e) =
       Ok (bool_decide (t ∈ dom (Binds (Binder e))),
           {| Binds := delete t (Binds (Binder e)) |}))
  ∧ (t ∈ dom (Binds (Binder e)) →
       ∃ b1, Remove_ptr t (Binder e) = Ok (true, b1)
             ∧ Binds b1 !! t = None
             ∧ Remove_ptr t b1 = Ok (false, b1))
  ∧ (t ≠ nullptr → t ∉ dom (Binds (Binder e)) →
       Remove_ptr t (Binder e) = Ok (false, Binder e))
  ∧ (expired ptr w = true → Remove_weak ptr w (Binder e) = Ok (false, Binder e))
  ∧ (shared_bool (lock ptr w) = true →
       wk_ptr ptr ≠ nullptr
       ∧ ∀ b, Remove_weak ptr w b = Remove_ptr (wk_ptr ptr) b).
Proof.
  intros R. pose proof (reachable_nonnull e w R) as Hnull.
  split; [by apply Remove_ptr_spec|]. split; [|split; [|split]].
  - intros Hin.
    assert (Ht : t ≠ nullptr).
    { intros ->. apply elem_of_dom in Hin as [v Hv]. congruence. }
    exists {| Binds := delete t (Binds (Binder e)) |}.
    rewrite !Remove_ptr_spec by done. cbn [Binds].
    rewrite bool_decide_eq_true_2 by done.
    rewrite bool_decide_eq_false_2
      by (rewrite dom_delete_L; intros [_ Hn]%elem_of_difference; apply Hn; by apply elem_of_singleton).
    rewrite lookup_delete_eq. by rewrite delete_delete_eq.
  - intros Ht Hout. rewrite Remove_ptr_spec by done.
    rewrite bool_decide_eq_false_2 by done.
    by rewrite delete_id, EventBinder_eta by (by apply not_elem_of_dom).
  - intros E. unfold Remove_weak. by rewrite lock_expired.
  - intros L. split.
    + rewrite expired_lock in L. apply andb_true_iff in L as [_ L].
      by apply bool_decide_eq_true in L.
    + intros b. unfold Remove_weak. by rewrite L, lock_get.
Qed.

(** ** C8: [RemoveAll], and raising an event nobody listens to *)

(** C8. After [RemoveAll] the event has no key and no callback:
    [CallbackCount] and [Size] are 0, and [Raise] returns the same event and
    the same world, so no user code ran.  The same holds of every event with
    an empty registry. *)
Theorem C8_RemoveAll_then_Raise_invokes_nothing e name args w :
  (let e0 := set_Binder e (RemoveAll (Binder e)) in
   step Do_RemoveAll e w = Ok (e0, w)
   ∧ all_callbacks e0 = []
   ∧ CallbackCount e0 = 0
   ∧ Size e0 = 0
   ∧ Raise e0 args w = (e0, w))
  ∧ (let e1 := {| Name := name; Binder := {| Binds := ∅ |} |} in
     Raise e1 args w = (e1, w) ∧ step (Do_Raise args) e1 w = Ok (e1, w)).
Proof.
  assert (Hraise : ∀ n, Raise {| Name := n; Binder := {| Binds := ∅ |} |} args w =
                         ({| Name := n; Binder := {| Binds := ∅ |} |}, w)).
  { intros n. unfold Raise. simpl. rewrite traverse_empty. done. }
  split.
  - cbn zeta. unfold RemoveAll, set_Binder. split; [done|]. split.
    { unfold all_callbacks. simpl. by rewrite map_to_list_empty. }
    split. { unfold CallbackCount. simpl. by rewrite traverse_empty. }
    split. { unfold Size. simpl. by rewrite map_size_empty. }
    apply Hraise.
  - cbn zeta. split; [apply Hraise|]. cbn [step]. by rewrite Hraise.
Qed.

(** ** C9: [Size] and [CallbackCount] *)

Lemma to_int_congr (x y : Z) : x mod 2 ^ 32 = y mod 2 ^ 32 → to_int x = to_int y.
Proof.
  intros E. unfold to_int.
  rewrite <- (Z.add_mod_idemp_l x), <- (Z.add_mod_idemp_l y) by lia. by rewrite E.
Qed.

Lemma to_size_t_mod32 (z : Z) : to_size_t z mod 2 ^ 32 = z mod 2 ^ 32.
Proof.
  unfold to_size_t. apply Z.mod_mod_divide. exists (2 ^ 32). lia.
Qed.

Lemma to_int_mod32 (z : Z) : to_int z mod 2 ^ 32 = z mod 2 ^ 32.
Proof.
  unfold to_int. rewrite Zminus_mod_idemp_l.
  f_equal. lia.
Qed.

Lemma to_int_small (z : Z) : - 2 ^ 31 ≤ z ≤ INT_MAX → to_int z = z.
Proof. unfold to_int, INT_MAX. intros Hz. rewrite Z.mod_small; lia. Qed.

Lemma CallbackCount_step (x y : Z) :
  to_int (to_size_t (to_size_t (to_int x) + to_size_t y)) = to_int (x + y).
Proof.
  apply to_int_congr. rewrite to_size_t_mod32.
  rewrite Z.add_mod, !to_size_t_mod32, to_int_mod32, <- Z.add_mod by lia. done.
Qed.

Lemma CallbackCount_foldl (l : list (Z * list LifecycleCallback)) (x : Z) :
  foldl (λ (total : Z) (pair : Z * list LifecycleCallback),
           to_int (to_size_t (to_size_t total + to_size_t (Z.of_nat (length pair.2)))))
        (to_int x) l
  = to_int (x + Z.of_nat (length (mjoin l.*2))).
Proof.
  revert x. induction l as [|[k v] l IH]; intros x.
  - simpl. f_equal. lia.
  - cbn [foldl snd]. rewrite CallbackCount_step, IH. f_equal.
    rewrite fmap_cons, mjoin_cons, length_app. cbn [snd]. lia.
Qed.

(** [CallbackCount] is the number of registered callbacks, converted to
    [int]; [Size] is the number of keys, converted to [int]. *)
Lemma CallbackCount_eq e : CallbackCount e = to_int (Z.of_nat (length (all_callbacks e))).
Proof.
  unfold CallbackCount. change 0 with (to_int 0) at 1. rewrite CallbackCount_foldl.
  unfold all_callbacks. by rewrite (traverse_perm (Binds (Binder e))).
Qed.

Lemma Size_eq e : Size e = to_int (Z.of_nat (size (dom (Binds (Binder e))))).
Proof. rewrite Size_dom. apply to_int_congr, to_size_t_mod32. Qed.

Lemma no_dangling_keys_le_callbacks e :
  no_dangling_keys e → (size (dom (Binds (Binder e))) ≤ length (all_callbacks e))%nat.
Proof.
  intros I. rewrite size_dom. unfold all_callbacks.
  rewrite <- length_map_to_list.
  assert (Hne : Forall (λ it : Z * list LifecycleCallback, it.2 ≠ [])
                  (map_to_list (Binds (Binder e)))).
  { apply Forall_forall. intros [k v] Hkv%elem_of_map_to_list. by apply (I k). }
  induction Hne as [|[k v] l Hv _ IH]; [done|].
  rewrite fmap_cons, mjoin_cons, length_app. cbn [snd length] in *.
  destruct v; [done|]. cbn [length]. lia.
Qed.

(** C9 (amended). In a state reached by the public operations and holding at
    most [INT_MAX] callbacks, [Size] is the number of keys of the map,
    [CallbackCount] is the number of callbacks over all keys, and
    [0 ≤ Size ≤ CallbackCount]; neither query changes the event or the
    world. *)
Theorem C9_counts_within_int_range e w :
  reachable e w →
  Z.of_nat (length (all_callbacks e)) ≤ INT_MAX →
  Size e = Z.of_nat (size (dom (Binds (Binder e))))
  ∧ CallbackCount e = Z.of_nat (length (all_callbacks e))
  ∧ 0 ≤ Size e ≤ CallbackCount e
  ∧ step Do_Size e w = Ok (e, w)
  ∧ step Do_CallbackCount e w = Ok (e, w).
Proof.
  intros R Hmax. pose proof (no_dangling_keys_le_callbacks e (reachable_no_dangling e w R)).
  assert (HS : Size e = Z.of_nat (size (dom (Binds (Binder e))))).
  { rewrite Size_eq. apply to_int_small. unfold INT_MAX in *. lia. }
  assert (HC : CallbackCount e = Z.of_nat (length (all_callbacks e))).
  { rewrite CallbackCount_eq. apply to_int_small. unfold INT_MAX in *. lia. }
  rewrite HS, HC. repeat split; lia.
Qed.

Lemma bind_many_reachable n e w : reachable e w → reachable (bind_many n e) w.
Proof.
  intros R. induction n as [|n IH]; [done|].
  apply (reachable_step (Do_Bind_Callback 1%nat) (bind_many n e) _ w w IH). done.
Qed.

Lemma bind_many_binds n name :
  ∃ v, Binds (Binder (bind_many (S n) (new_Event name))) = {[ StandaloneCallbackKey := v ]}
       ∧ length v = S n.
Proof.
  induction n as [|n (v & Hv & Hlen)].
  - exists [bound_Callback 1%nat false]. split; [|done].
    unfold bind_many, Bind_Callback, Bind_Callback_, InternalBind. simpl.
    rewrite lookup_empty. apply insert_empty.
  - exists (v ++ [bound_Callback 1%nat false]). split.
    + change (bind_many (S (S n)) (new_Event name))
        with (set_Binder (bind_many (S n) (new_Event name))
                (Bind_Callback 1%nat (Binder (bind_many (S n) (new_Event name))))).
      unfold Bind_Callback, Bind_Callback_, InternalBind. cbn [set_Binder Binder].
      rewrite Hv, lookup_singleton_eq. cbn [Binds]. apply insert_singleton_eq.
    + rewrite length_app, Hlen. simpl. lia.
Qed.

Lemma bind_many_counts n name :
  (0 < n)%nat →
  length (all_callbacks (bind_many n (new_Event name))) = n
  ∧ size (dom (Binds (Binder (bind_many n (new_Event name))))) = 1%nat.
Proof.
  intros Hn. destruct n as [|n]; [lia|].
  destruct (bind_many_binds n name) as (v & Hv & Hlen).
  unfold all_callbacks. rewrite Hv, map_to_list_singleton, dom_singleton_L, size_singleton.
  split; [|done]. rewrite fmap_cons, mjoin_cons. cbn [snd fmap list_fmap].
  rewrite length_app, Hlen. simpl. lia.
Qed.

(** ** C10: empty shared pointers *)

(** C10. [IsBound] and [Remove] called with a [shared_ptr] that stores
    [nullptr] return [false] and leave the event as it was; the overloads
    taking the raw pointer abort on [nullptr]. *)
Theorem C10_null_shared_ptr_is_not_bound e w (ctrl : option nat) :
  let shared := {| s_ctrl := ctrl; s_get := nullptr |} in
  IsBound_shared shared (Binder e) = Ok false
  ∧ Remove_shared shared (Binder e) = Ok (false, Binder e)
  ∧ step (Do_IsBound_shared shared) e w = Ok (e, w)
  ∧ step (Do_Remove_shared shared) e w = Ok (e, w)
  ∧ IsBound_ptr nullptr (Binder e) = AssertionFailed "Cannot check bind of a null pointer"
  ∧ Remove_ptr nullptr (Binder e) = AssertionFailed "Cannot remove a null pointer".
Proof.
  cbn zeta. repeat split; try done.
  cbn [step]. unfold Remove_shared. simpl. by rewrite set_Binder_same.
Qed.

(** * Further properties of the binder and of [Raise] *)

(** ** What a pass keeps, as a whole *)

Lemma kept_Some w v y : kept w v = Some y → y = filter (λ cb, survives cb w = true) v.
Proof. unfold kept. destruct (filter _ v); [done|]. by intros [= <-]. Qed.

Lemma kept_None w v : kept w v = None → filter (λ cb, survives cb w = true) v = [].
Proof. unfold kept. by destruct (filter _ v). Qed.

(** The callbacks left by a pass are the surviving ones, each as often as it
    was registered. *)
Lemma all_callbacks_Raise_perm e a w :
  all_callbacks (Raise e a w).1 ≡ₚ filter (λ cb, survives cb w = true) (all_callbacks e).
Proof.
  rewrite Raise_spec. unfold all_callbacks. cbn [fst set_Binder Binder Binds].
  generalize (Binds (Binder e)). intros m.
  induction m as [|i x m Hi IH] using map_ind.
  - by rewrite omap_empty, map_to_list_empty.
  - rewrite omap_insert, (map_to_list_insert m i x Hi), fmap_cons, mjoin_cons, filter_app.
    cbn [snd].
    assert (Ho : omap (kept w) m !! i = None) by (by rewrite lookup_omap, Hi).
    destruct (kept w x) as [y|] eqn:K.
    + rewrite (map_to_list_insert _ i y Ho), fmap_cons, mjoin_cons. cbn [snd].
      by rewrite IH, (kept_Some w x y K).
    + by rewrite (delete_id _ i Ho), IH, (kept_None w x K).
Qed.

Lemma filter_length_all {T : Type} (P : T → Prop) `{!∀ x, Decision (P x)} (l : list T) :
  length (filter P l) = length l → ∀ x, x ∈ l → P x.
Proof.
  induction l as [|y l IH]; intros Hlen x Hx; [by apply elem_of_nil in Hx|].
  rewrite filter_cons in Hlen. destruct (decide (P y)) as [Py|Py].
  - simpl in Hlen. apply elem_of_cons in Hx as [->|Hx]; [done|].
    apply IH; [lia|done].
  - pose proof (length_filter P l). simpl in Hlen. lia.
Qed.

Lemma filter_all {T : Type} (P : T → Prop) `{!∀ x, Decision (P x)} (l : list T) :
  (∀ x, x ∈ l → P x) → filter P l = l.
Proof.
  induction l as [|y l IH]; intros HP; [done|].
  rewrite filter_cons_True by (apply HP; left).
  rewrite IH; [done|]. intros x Hx. apply HP. by right.
Qed.

Lemma survives_same_blocks cb w w0 :
  expired_blocks w = expired_blocks w0 → survives cb w = survives cb w0.
Proof. intros E. unfold survives. by rewrite (liveness_same_blocks cb w w0 E). Qed.

Lemma Raise_expired_blocks e a w : expired_blocks (Raise e a w).2 = expired_blocks w.
Proof. by rewrite Raise_spec. Qed.

Lemma Event_eta e : set_Binder e {| Binds := Binds (Binder e) |} = e.
Proof. destruct e as [n [m]]. done. Qed.

(** A pass in which every callback survives leaves the event as it is. *)
Lemma Raise_all_survive e a w :
  no_dangling_keys e →
  (∀ cb, cb ∈ all_callbacks e → survives cb w = true) →
  (Raise e a w).1 = e.
Proof.
  intros I Hall. rewrite Raise_spec. cbn [fst].
  assert (Hm : omap (kept w) (Binds (Binder e)) = Binds (Binder e)).
  { apply map_eq. intros k. rewrite lookup_omap.
    destruct (Binds (Binder e) !! k) as [v|] eqn:Hk; [|done]. simpl.
    unfold kept. rewrite filter_all.
    - pose proof (I k v Hk). by destruct v.
    - intros cb Hcb. apply Hall, elem_of_all_callbacks. exists k.
      unfold callbacks_of. by rewrite Hk. }
  rewrite Hm. apply Event_eta.
Qed.

Lemma deliveries_length v a w :
  length (deliveries v a w) = length (filter (λ cb, liveness cb w = true) v).
Proof.
  revert a. induction v as [|cb v IH]; intros a; [done|].
  cbn [deliveries]. rewrite length_app, IH, filter_cons.
  destruct (liveness cb w); [by rewrite decide_True|by rewrite decide_False].
Qed.

Lemma deliveries_from v a w i :
  i ∈ deliveries v a w →
  ∃ cb, cb ∈ v ∧ liveness cb w = true ∧ inv_fn i = user_fn cb ∧ inv_this i = receiver cb.
Proof.
  revert a. induction v as [|cb v IH]; intros a; cbn [deliveries].
  - by intros ?%elem_of_nil.
  - intros [Hi|Hi]%elem_of_app.
    + destruct (liveness cb w) eqn:L; [|by apply elem_of_nil in Hi].
      apply list_elem_of_singleton in Hi as ->. exists cb. repeat split; [left|done].
    + destruct (IH _ Hi) as (cb' & Hin & L & Hf & Ht). exists cb'.
      repeat split; [by right|done..].
Qed.

Lemma raise_deliveries_length (l : list (Z * list LifecycleCallback)) a w :
  length (raise_deliveries l a w) = length (filter (λ cb, liveness cb w = true) (mjoin l.*2)).
Proof.
  revert a. induction l as [|[k v] l IH]; intros a; [done|].
  cbn [raise_deliveries snd]. rewrite fmap_cons, mjoin_cons, filter_app, !length_app.
  cbn [snd]. by rewrite deliveries_length, IH.
Qed.

Lemma raise_deliveries_from (l : list (Z * list LifecycleCallback)) a w i :
  i ∈ raise_deliveries l a w →
  ∃ cb, cb ∈ mjoin l.*2 ∧ liveness cb w = true
        ∧ inv_fn i = user_fn cb ∧ inv_this i = receiver cb.
Proof.
  revert a. induction l as [|[k v] l IH]; intros a; cbn [raise_deliveries snd].
  - by intros ?%elem_of_nil.
  - rewrite fmap_cons, mjoin_cons. cbn [snd]. intros [Hi|Hi]%elem_of_app.
    + destruct (deliveries_from v a w i Hi) as (cb & Hin & Hrest). exists cb.
      split; [apply elem_of_app; by left|done].
    + destruct (IH _ Hi) as (cb & Hin & Hrest). exists cb.
      split; [apply elem_of_app; by right|done].
Qed.

Lemma deliveries_who v a w :
  (λ i, (inv_fn i, inv_this i)) <$> deliveries v a w =
    (λ cb, (user_fn cb, receiver cb)) <$> filter (λ cb, liveness cb w = true) v.
Proof.
  revert a. induction v as [|cb v IH]; intros a; [done|].
  cbn [deliveries]. rewrite fmap_app, IH, filter_cons.
  destruct (liveness cb w); [by rewrite decide_True|by rewrite decide_False].
Qed.

Lemma raise_deliveries_who (l : list (Z * list LifecycleCallback)) a w :
  (λ i, (inv_fn i, inv_this i)) <$> raise_deliveries l a w =
    (λ cb, (user_fn cb, receiver cb)) <$> filter (λ cb, liveness cb w = true) (mjoin l.*2).
Proof.
  revert a. induction l as [|[k v] l IH]; intros a; [done|].
  cbn [raise_deliveries snd]. rewrite fmap_cons, mjoin_cons, filter_app, !fmap_app.
  cbn [snd]. by rewrite deliveries_who, IH.
Qed.

Lemma invocations_same_args (l : list (@Invocation A)) a :
  (∀ i, i ∈ l → inv_args i = a) →
  l = (λ p, Invoked p.1 p.2 a) <$> ((λ i, (inv_fn i, inv_this i)) <$> l).
Proof.
  induction l as [|i l IH]; intros Hall; [done|].
  rewrite !fmap_cons, <- IH by (intros j Hj; apply Hall; by right).
  f_equal. pose proof (Hall i ltac:(left)) as Hi. destruct i as [f this b]. cbn in *. by subst.
Qed.

(** X1. A pass keeps under every key exactly the callbacks whose call
    returned [true], in their order, and registers nothing: each vector
    after the pass is a sublist of the one before, no key is added, and the
    name is kept.  A callback's call returns [true] exactly when its
    liveness test passes and it is not fire-once, whatever the arguments. *)
Theorem X1_Raise_keeps_the_callbacks_that_returned_true e a w :
  (∀ cb a', (call cb a' w).1 = survives cb w)
  ∧ (∀ k, callbacks_of k (Raise e a w).1 =
          filter (λ cb, survives cb w = true) (callbacks_of k e))
  ∧ (∀ k, callbacks_of k (Raise e a w).1 `sublist_of` callbacks_of k e)
  ∧ dom (Binds (Binder (Raise e a w).1)) ⊆ dom (Binds (Binder e))
  ∧ all_callbacks (Raise e a w).1 ≡ₚ
      filter (λ cb, survives cb w = true) (all_callbacks e)
  ∧ GetName (Raise e a w).1 = GetName e.
Proof.
  split; [intros cb a'; by rewrite call_spec|].
  split; [intros k; apply Raise_callbacks_of|].
  split; [intros k; rewrite Raise_callbacks_of; apply sublist_filter|].
  split; [|split; [apply all_callbacks_Raise_perm|by rewrite Raise_spec]].
  intros k Hk. apply Raise_dom in Hk as (cb & Hcb & _). apply elem_of_dom.
  unfold callbacks_of in Hcb. destruct (Binds (Binder e) !! k); [eauto|].
  by apply elem_of_nil in Hcb.
Qed.

(** X2. A pass invokes each callback whose liveness test passes exactly
    once.  The invocations it adds to the log are, entry for entry and in the
    order of the visit, the user code and the receiver of the visited
    callbacks whose test passes, and the visit goes through every registered
    callback once; so every user code [f] is run as many times as there are
    registered callbacks that wrap [f] and pass their test. *)
Theorem X2_Raise_invokes_each_live_callback_once e a w :
  let visited := mjoin (traverse (Binds (Binder e))).*2 in
  ∃ l, log (Raise e a w).2 = log w ++ l
       ∧ visited ≡ₚ all_callbacks e
       ∧ (λ i, (inv_fn i, inv_this i)) <$> l =
           (λ cb, (user_fn cb, receiver cb)) <$> filter (λ cb, liveness cb w = true) visited
       ∧ (λ i, (inv_fn i, inv_this i)) <$> l ≡ₚ
           (λ cb, (user_fn cb, receiver cb))
             <$> filter (λ cb, liveness cb w = true) (all_callbacks e)
       ∧ ∀ f, times_invoked f l =
                length (filter (λ cb, user_fn cb = f ∧ liveness cb w = true)
                          (all_callbacks e)).
Proof.
  intros visited.
  assert (Hperm : visited ≡ₚ all_callbacks e).
  { unfold visited, all_callbacks. by rewrite (traverse_perm (Binds (Binder e))). }
  exists (raise_deliveries (traverse (Binds (Binder e))) a w).
  split; [by rewrite Raise_spec|]. split; [done|].
  split; [apply raise_deliveries_who|].
  split; [by rewrite raise_deliveries_who, <- Hperm|].
  intros f. rewrite raise_deliveries_times_invoked. fold visited. by rewrite Hperm.
Qed.

(** X3. Raising twice evicts no more than raising once: a pass run right
    after a pass, or later in any world in which the same objects are
    destroyed, leaves the event as the first pass left it, whatever the
    arguments. *)
Theorem X3_second_Raise_leaves_the_registry e a a' w :
  (Raise (Raise e a w).1 a' (Raise e a w).2).1 = (Raise e a w).1
  ∧ (∀ w', expired_blocks w' = expired_blocks w →
        (Raise (Raise e a w).1 a' w').1 = (Raise e a w).1).
Proof.
  assert (Hgen : ∀ w', expired_blocks w' = expired_blocks w →
                   (Raise (Raise e a w).1 a' w').1 = (Raise e a w).1).
  { intros w' E. apply Raise_all_survive; [apply no_dangling_Raise|].
    intros cb [_ S]%elem_of_all_callbacks_Raise.
    by rewrite (survives_same_blocks cb w' w E). }
  split; [|done]. apply Hgen, Raise_expired_blocks.
Qed.

(** X4. In a reachable state a pass leaves the event as it is if and only
    if every registered callback survives it, that is, passes its liveness
    test and is not fire-once. *)
Theorem X4_Raise_changes_nothing_iff_all_survive e a w :
  reachable e w →
  (Raise e a w).1 = e ↔ ∀ cb, cb ∈ all_callbacks e → survives cb w = true.
Proof.
  intros R. split.
  - intros E. apply (filter_length_all (λ cb, survives cb w = true)).
    by rewrite <- (all_callbacks_Raise_perm e a w), E.
  - apply Raise_all_survive. by apply (reachable_no_dangling e w).
Qed.

Lemma filter_ext_in {T : Type} (P Q : T → Prop)
    `{!∀ x, Decision (P x), !∀ x, Decision (Q x)} (l : list T) :
  (∀ x, x ∈ l → P x ↔ Q x) → filter P l = filter Q l.
Proof.
  induction l as [|y l IH]; intros HPQ; [done|].
  rewrite !filter_cons, IH by (intros x Hx; apply HPQ; by right).
  destruct (decide (P y)) as [Py|Py], (decide (Q y)) as [Qy|Qy]; try done.
  - destruct Qy. apply HPQ; [left|done].
  - destruct Py. apply HPQ; [left|done].
Qed.

Lemma Raise_each_snoc_free l e w a :
  Raise_each (a :: l) e w = Raise_each l (Raise e a w).1 (Raise e a w).2.
Proof. cbn [Raise_each]. by destruct (Raise e a w). Qed.

(** X5. User code all of whose registered callbacks survive a pass (they
    are not fire-once and their liveness test passes, as it always does for
    a callback bound with a raw pointer or without an object) is invoked by
    every [Raise] once per such callback, and its callbacks stay registered:
    after [n] calls of [Raise] it has run [n] times per callback. *)
Theorem X5_repeat_subscription_runs_on_every_Raise e w f l :
  (∀ cb, cb ∈ all_callbacks e → user_fn cb = f → survives cb w = true) →
  times_invoked f (log (Raise_each l e w).2) =
    (times_invoked f (log w)
     + length l * length (filter (λ cb, user_fn cb = f) (all_callbacks e)))%nat
  ∧ filter (λ cb, user_fn cb = f) (all_callbacks (Raise_each l e w).1) ≡ₚ
      filter (λ cb, user_fn cb = f) (all_callbacks e)
  ∧ (∀ cb, weak_ref cb = None → is_once cb = false → survives cb w = true).
Proof.
  intros Hf. split; [|split].
  - revert e w Hf. induction l as [|a l IH]; intros e w Hf; [simpl; lia|].
    rewrite Raise_each_snoc_free.
    assert (Hkeep : filter (λ cb, user_fn cb = f) (all_callbacks (Raise e a w).1) ≡ₚ
                    filter (λ cb, user_fn cb = f) (all_callbacks e)).
    { rewrite all_callbacks_Raise_perm, list_filter_filter.
      erewrite filter_ext_in; [done|]. intros cb Hcb. split; [by intros [? _]|].
      intros E. split; [done|]. by apply Hf. }
    rewrite IH.
    + rewrite Hkeep, Raise_times_invoked. cbn [length].
      erewrite (filter_ext_in _ (λ cb, user_fn cb = f)).
      * lia.
      * intros cb Hcb. split; [by intros [? _]|]. intros E. split; [done|].
        specialize (Hf cb Hcb E). unfold survives in Hf.
        by apply andb_true_iff in Hf as [? _].
    + intros cb [Hcb S]%elem_of_all_callbacks_Raise E.
      rewrite (survives_same_blocks cb _ w); [done|]. apply Raise_expired_blocks.
  - revert e w Hf. induction l as [|a l IH]; intros e w Hf; [done|].
    rewrite Raise_each_snoc_free, IH.
    + rewrite all_callbacks_Raise_perm, list_filter_filter.
      erewrite filter_ext_in; [done|]. intros cb Hcb. split; [by intros [? _]|].
      intros E. split; [done|]. by apply Hf.
    + intros cb [Hcb S]%elem_of_all_callbacks_Raise E.
      rewrite (survives_same_blocks cb _ w); [done|]. apply Raise_expired_blocks.
  - intros cb Hw Ho. unfold survives. rewrite Ho. by destruct cb.
Qed.

(** ** Binding, and undoing it *)

Lemma registers_weak_live op w t cb weak :
  registers op w = Some (t, cb) → weak_ref cb = Some weak →
  shared_bool (lock weak w) = true ∧ s_get (lock weak w) = t.
Proof.
  intros Hreg Hweak.
  destruct op; cbn [registers] in Hreg; try done;
    repeat match type of Hreg with
           | context [bool_decide ?P] => destruct (bool_decide P)
           | context [shared_bool ?p] =>
               let E := fresh "E" in destruct (shared_bool p) eqn:E
           end;
    try done; injection Hreg as <- <-; simpl in Hweak; try done;
    by injection Hweak as <-.
Qed.

Lemma IsBound_ptr_spec t (b : EventBinder) :
  t ≠ nullptr → IsBound_ptr t b = Ok (bool_decide (t ∈ dom (Binds b))).
Proof.
  intros Ht. unfold IsBound_ptr, assert. rewrite bool_decide_eq_true_2 by done.
  f_equal. apply bool_decide_ext. by rewrite elem_of_dom.
Qed.

Lemma InternalBind_undo e bound t :
  Binds (Binder e) !! t = None →
  set_Binder (set_Binder e (InternalBind bound t (Binder e)))
    {| Binds := delete t (Binds (InternalBind bound t (Binder e))) |} = e.
Proof.
  intros Hnone. unfold InternalBind. rewrite Hnone. cbn [Binds].
  rewrite delete_insert_eq, delete_id by done.
  destruct e as [name [binds]]. done.
Qed.

(** X6. Every bind that gets as far as registering a closure for an object
    returns normally and leaves the object bound: [IsBound] of its address
    is [true], and so is [IsBound] of the weak or shared pointer the bind
    was given.  The callbacks and the answer of [IsBound] for every other
    address are as before, and so is the name of the event. *)
Theorem X6_Bind_makes_the_object_bound op e w t cb :
  registers op w = Some (t, cb) →
  ∃ e', step op e w = Ok (e', w)
    ∧ IsBound_ptr t (GetBinder e') = Ok true
    ∧ (∀ weak, weak_ref cb = Some weak → IsBound_weak weak w (GetBinder e') = Ok true)
    ∧ (∀ shared, weak_ref cb = Some (weak_of shared) →
         IsBound_shared shared (GetBinder e') = Ok true)
    ∧ (∀ k, k ≠ t →
         callbacks_of k e' = callbacks_of k e
         ∧ IsBound_ptr k (GetBinder e') = IsBound_ptr k (GetBinder e))
    ∧ GetName e' = GetName e.
Proof.
  intros Hreg. pose proof (registers_nonnull op w t cb Hreg) as Ht.
  exists (set_Binder e (InternalBind cb t (Binder e))).
  assert (Hb : IsBound_ptr t (InternalBind cb t (Binder e)) = Ok true).
  { rewrite IsBound_ptr_spec by done. f_equal. apply bool_decide_eq_true_2.
    apply elem_of_dom. rewrite InternalBind_lookup, decide_True by done. eauto. }
  split; [by apply step_registers|]. split; [exact Hb|]. split; [|split; [|split]].
  - intros weak Hweak.
    destruct (registers_weak_live op w t cb weak Hreg Hweak) as [L G].
    unfold IsBound_weak, GetBinder. cbn [Binder set_Binder]. by rewrite L, G.
  - intros shared Hweak.
    destruct (registers_weak_live op w t cb _ Hreg Hweak) as [L G].
    rewrite (lock_get _ _ L) in G. cbn [weak_of wk_ptr] in G.
    unfold IsBound_shared, GetBinder, shared_bool. cbn [Binder set_Binder].
    rewrite G, bool_decide_eq_true_2 by done. exact Hb.
  - intros k Hk. unfold callbacks_of, IsBound_ptr, GetBinder. cbn [Binder set_Binder].
    by rewrite InternalBind_lookup, decide_False.
  - done.
Qed.

(** X7. Binding for an object that has no entry yet and then removing the
    object, by its address or through the weak reference the bind was
    given, leaves the event exactly as it was before the bind; no user code
    runs in between. *)
Theorem X7_Bind_then_Remove_restores_the_event op e w t cb :
  registers op w = Some (t, cb) →
  Binds (Binder e) !! t = None →
  run [op; Do_Remove_ptr t] e w = Ok (e, w)
  ∧ (∀ weak, weak_ref cb = Some weak → run [op; Do_Remove_weak weak] e w = Ok (e, w))
  ∧ (∀ shared, weak_ref cb = Some (weak_of shared) →
       run [op; Do_Remove_shared shared] e w = Ok (e, w)).
Proof.
  intros Hreg Hnone. pose proof (registers_nonnull op w t cb Hreg) as Ht.
  assert (Hrm : step (Do_Remove_ptr t) (set_Binder e (InternalBind cb t (Binder e))) w
                = Ok (e, w)).
  { cbn [step Binder set_Binder]. rewrite Remove_ptr_spec by done.
    cbn [Checked_map snd]. by rewrite InternalBind_undo. }
  split; [|split].
  - cbn [run]. by rewrite (step_registers op e w t cb Hreg), Hrm.
  - intros weak Hweak.
    destruct (registers_weak_live op w t cb weak Hreg Hweak) as [L G].
    cbn [run]. rewrite (step_registers op e w t cb Hreg).
    cbn [step] in *. unfold Remove_weak. by rewrite L, G, Hrm.
  - intros shared Hweak.
    destruct (registers_weak_live op w t cb _ Hreg Hweak) as [L G].
    rewrite (lock_get _ _ L) in G. cbn [weak_of wk_ptr] in G.
    cbn [run]. rewrite (step_registers op e w t cb Hreg).
    cbn [step] in *. unfold Remove_shared, shared_bool.
    by rewrite G, bool_decide_eq_true_2, Hrm.
Qed.

(** ** The key a closure is registered under *)

Lemma registers_key op w t cb : registers op w = Some (t, cb) → bound_key cb = t.
Proof.
  intros Hreg.
  destruct op; cbn [registers] in Hreg; try done;
    repeat match type of Hreg with
           | context [bool_decide ?P] => destruct (bool_decide P)
           | context [shared_bool ?p] =>
               let E := fresh "E" in destruct (shared_bool p) eqn:E;
               [apply lock_get in E|]
           end;
    try done; by injection Hreg as <- <-.
Qed.

Lemma reachable_bound_key e w k cb :
  reachable e w → cb ∈ callbacks_of k e → bound_key cb = k ∧ k ≠ nullptr.
Proof.
  intros R. revert k cb.
  induction R as [name w|op e e' w w' _ IH Hstep]; intros k cb Hcb.
  - unfold callbacks_of in Hcb. simpl in Hcb. rewrite lookup_empty in Hcb.
    by apply elem_of_nil in Hcb.
  - destruct (elem_of_callbacks_of_step op e w e' w' k cb Hstep Hcb) as [Hin|Hreg].
    + by apply IH.
    + split; [by apply (registers_key op w)|by apply (registers_nonnull op w k cb)].
Qed.

Lemma all_callbacks_delete_perm e k :
  all_callbacks e ≡ₚ
    callbacks_of k e ++ all_callbacks (set_Binder e {| Binds := delete k (Binds (Binder e)) |}).
Proof.
  unfold all_callbacks, callbacks_of. cbn [set_Binder Binder Binds].
  destruct (Binds (Binder e) !! k) as [v|] eqn:E; simpl.
  - by rewrite <- (map_to_list_delete _ _ _ E), fmap_cons, mjoin_cons.
  - by rewrite delete_id.
Qed.

Lemma callbacks_of_delete e k k' :
  callbacks_of k' (set_Binder e {| Binds := delete k (Binds (Binder e)) |}) =
    if decide (k = k') then [] else callbacks_of k' e.
Proof.
  unfold callbacks_of. cbn [set_Binder Binder Binds]. rewrite lookup_delete.
  by destruct (decide (k = k')).
Qed.

(** In a reachable state, erasing the entry of [t] takes away the callbacks
    built for [t] and no other. *)
Lemma all_callbacks_delete_bound_key e w t :
  reachable e w →
  all_callbacks (set_Binder e {| Binds := delete t (Binds (Binder e)) |}) ≡ₚ
    filter (λ cb, bound_key cb ≠ t) (all_callbacks e).
Proof.
  intros R. rewrite (all_callbacks_delete_perm e t) at 1. rewrite filter_app.
  rewrite (filter_nil_intro _ (callbacks_of t e)).
  - rewrite filter_all; [done|].
    intros cb [k Hcb]%elem_of_all_callbacks. rewrite callbacks_of_delete in Hcb.
    destruct (decide (t = k)) as [->|Hne]; [by apply elem_of_nil in Hcb|].
    destruct (reachable_bound_key e w k cb R Hcb) as [-> _]. done.
  - intros cb Hcb Hne. by destruct (reachable_bound_key e w t cb R Hcb) as [? _].
Qed.

Lemma step_Remove_ptr e w t :
  t ≠ nullptr →
  step (Do_Remove_ptr t) e w =
    Ok (set_Binder e {| Binds := delete t (Binds (Binder e)) |}, w).
Proof. intros Ht. cbn [step]. by rewrite Remove_ptr_spec. Qed.

(** X8. In every state the public operations reach, a closure sits under
    the address it was built for (the pointer given to the bind, the pointer
    of its weak reference, or the all-ones key of callbacks bound without an
    object), and that address is not null.  Hence [IsBound] of a non-null
    pointer returns normally, and returns [true] exactly when some registered
    closure was built for that pointer. *)
Theorem X8_IsBound_finds_the_callbacks_built_for_the_object e w t :
  reachable e w → t ≠ nullptr →
  (∀ k cb, cb ∈ callbacks_of k e → bound_key cb = k ∧ k ≠ nullptr)
  ∧ ∃ r, IsBound_ptr t (GetBinder e) = Ok r
         ∧ (r = true ↔ ∃ cb, cb ∈ all_callbacks e ∧ bound_key cb = t).
Proof.
  intros R Ht. split; [intros k cb; by apply (reachable_bound_key e w)|].
  exists (bool_decide (t ∈ dom (Binds (Binder e)))).
  split; [by apply IsBound_ptr_spec|].
  rewrite bool_decide_eq_true, (no_dangling_dom e t (reachable_no_dangling e w R)).
  split.
  - destruct (callbacks_of t e) as [|cb v] eqn:E; [done|]. intros _. exists cb.
    assert (Hcb : cb ∈ callbacks_of t e) by (rewrite E; left).
    split; [|by apply (reachable_bound_key e w t cb R)].
    apply elem_of_all_callbacks. by exists t.
  - intros (cb & [k Hcb]%elem_of_all_callbacks & Hkey) E.
    destruct (reachable_bound_key e w k cb R Hcb) as [Hk _].
    assert (k = t) as -> by congruence. rewrite E in Hcb. by apply elem_of_nil in Hcb.
Qed.

(** X9. In a reachable state, [Remove] of a non-null pointer takes out of
    the registry exactly the closures built for that pointer: the callbacks
    left are, up to the order of the keys, those built for another address;
    every other key keeps its vector, in order; and the pointer is no longer
    bound. *)
Theorem X9_Remove_drops_exactly_the_callbacks_of_the_object e w t :
  reachable e w → t ≠ nullptr →
  ∃ e', step (Do_Remove_ptr t) e w = Ok (e', w)
    ∧ all_callbacks e' ≡ₚ filter (λ cb, bound_key cb ≠ t) (all_callbacks e)
    ∧ (∀ k, k ≠ t → callbacks_of k e' = callbacks_of k e)
    ∧ callbacks_of t e' = []
    ∧ IsBound_ptr t (GetBinder e') = Ok false
    ∧ GetName e' = GetName e.
Proof.
  intros R Ht. exists (set_Binder e {| Binds := delete t (Binds (Binder e)) |}).
  split; [by apply step_Remove_ptr|]. split; [by apply (all_callbacks_delete_bound_key e w)|].
  split; [|split; [|split]].
  - intros k Hk. by rewrite callbacks_of_delete, decide_False.
  - by rewrite callbacks_of_delete, decide_True.
  - rewrite IsBound_ptr_spec by done. f_equal. apply bool_decide_eq_false_2.
    cbn [GetBinder set_Binder Binder Binds]. rewrite dom_delete_L.
    rewrite elem_of_difference, elem_of_singleton. tauto.
  - done.
Qed.

(** X10. Unsubscribing takes effect: when every registered closure that
    wraps user code [f] was built for the object at [t], then after
    [Remove(t)] no run of further operations invokes [f], as long as none of
    them binds [f] again. *)
Theorem X10_removed_object_is_not_called_again e w t f ops e' w' :
  reachable e w → t ≠ nullptr →
  (∀ cb, cb ∈ all_callbacks e → user_fn cb = f → bound_key cb = t) →
  Forall (λ op, ∀ w0 t' cb, registers op w0 = Some (t', cb) → user_fn cb ≠ f) ops →
  run (Do_Remove_ptr t :: ops) e w = Ok (e', w') →
  times_invoked f (log w') = times_invoked f (log w).
Proof.
  intros R Ht Hf Hops. cbn [run]. rewrite step_Remove_ptr by done.
  apply run_unbound; [|done].
  intros cb Hcb E. rewrite (all_callbacks_delete_bound_key e w t R) in Hcb.
  apply list_elem_of_filter in Hcb as [Hne Hcb]. by apply Hne, Hf.
Qed.

(** ** What the operations leave alone *)

Lemma step_world op e w e' w' :
  step op e w = Ok (e', w') →
  Name e' = Name e
  ∧ (w' = w
     ∨ (∃ args, op = Do_Raise args ∧ (e', w') = Raise e args w)
     ∨ (∃ c, op = Env_destroy c ∧ w' = destroy c w)).
Proof.
  destruct op; cbn [step]; unfold Cleanup, assert; cbn [Checked_map];
    repeat match goal with
           | |- context [Checked_map _ ?c] => destruct c; cbn [Checked_map]
           end;
    try done; try (intros [= <- <-]; split; [done|by left]).
  - intros [= E]. split; [|right; left; eauto].
    pose proof (f_equal fst E) as E1. cbn [fst] in E1. by rewrite <- E1, Raise_spec.
  - intros [= <- <-]. split; [done|]. right. right. eauto.
Qed.

Lemma step_log op e w e' w' :
  step op e w = Ok (e', w') →
  Name e' = Name e
  ∧ ((∀ args, op ≠ Do_Raise args) → log w' = log w)
  ∧ ∃ l, log w' = log w ++ l
         ∧ ∀ i, i ∈ l → ∃ cb, cb ∈ all_callbacks e
                              ∧ inv_fn i = user_fn cb ∧ inv_this i = receiver cb.
Proof.
  intros Hstep.
  destruct (step_world op e w e' w' Hstep) as [Hn [->|[(args & -> & E)|(c & -> & ->)]]].
  - split; [done|]. split; [done|]. exists []. rewrite app_nil_r. split; [done|].
    by intros i ?%elem_of_nil.
  - apply (f_equal snd) in E. cbn [snd] in E. subst w'. rewrite Raise_spec. cbn [snd log].
    split; [done|]. split; [intros Hne; by destruct (Hne args)|].
    exists (raise_deliveries (traverse (Binds (Binder e))) args w). split; [done|].
    intros i Hi. destruct (raise_deliveries_from _ _ _ _ Hi) as (cb & Hcb & _ & Hf & Ht).
    exists cb. split; [|done]. unfold all_callbacks.
    by rewrite <- (traverse_perm (Binds (Binder e))).
  - split; [done|]. split; [done|]. exists []. cbn [destroy log]. rewrite app_nil_r.
    split; [done|]. by intros i ?%elem_of_nil.
Qed.

(** X11. The event calls only what was bound to it, and only from [Raise].
    Over any run of operations that does not abort: the event keeps the name
    it was constructed with; a run without a [Raise] adds no invocation to
    the log (binding, removing and the queries call no callback); and every
    invocation the run adds runs the user code, on the receiver, of a
    callback that was registered when the run began or of a closure that a
    bind of the run registered. *)
Theorem X11_only_Raise_runs_user_code ops e w e' w' :
  run ops e w = Ok (e', w') →
  GetName e' = GetName e
  ∧ (Forall (λ op, ∀ args, op ≠ Do_Raise args) ops → log w' = log w)
  ∧ ∃ l, log w' = log w ++ l
         ∧ ∀ i, i ∈ l →
             ∃ cb, inv_fn i = user_fn cb ∧ inv_this i = receiver cb
                   ∧ (cb ∈ all_callbacks e
                      ∨ ∃ op w0 t, op ∈ ops ∧ registers op w0 = Some (t, cb)).
Proof.
  revert e w. induction ops as [|op ops IH]; intros e w; cbn [run].
  - intros [= <- <-]. split; [done|]. split; [done|]. exists []. rewrite app_nil_r.
    split; [done|]. by intros i ?%elem_of_nil.
  - destruct (step op e w) as [[e1 w1]|] eqn:Hstep; [|done]. intros Hrun.
    destruct (step_log op e w e1 w1 Hstep) as (N1 & P1 & l1 & L1 & F1).
    destruct (IH e1 w1 Hrun) as (N2 & P2 & l2 & L2 & F2).
    split; [unfold GetName in *; congruence|].
    split; [intros [Hop Hops]%Forall_cons; by rewrite P2, P1|].
    exists (l1 ++ l2). split; [by rewrite L2, L1, app_assoc|].
    intros i [Hi|Hi]%elem_of_app.
    + destruct (F1 i Hi) as (cb & Hcb & Hf & Ht). exists cb. auto.
    + destruct (F2 i Hi) as (cb & Hf & Ht & [Hcb|(op' & w0 & t & Hop & Hreg)]).
      * exists cb. split; [done|]. split; [done|].
        destruct (elem_of_all_callbacks_step op e w e1 w1 cb Hstep Hcb) as [?|[t Hreg]];
          [by left|].
        right. exists op, w, t. split; [left|done].
      * exists cb. split; [done|]. split; [done|].
        right. exists op', w0, t. split; [by right|done].
Qed.

(** X12. The operations that abort are exactly these: [Cleanup], always
    (it is not implemented); a bind, [Remove] or [IsBound] given a null raw
    pointer.  In particular no overload taking a weak or shared pointer
    aborts, whatever the pointer, and neither do [Raise], [RemoveAll],
    [Size] and [CallbackCount]. *)
Theorem X12_the_operations_that_abort op e w msg :
  step op e w = AssertionFailed msg ↔
    (op = Do_Cleanup ∧ msg = "Not implemented")
    ∨ (∃ f, (op = Do_Bind_Callback_ptr f nullptr ∨ op = Do_BindOnce_Callback_ptr f nullptr
             ∨ op = Do_Bind_Member_ptr f nullptr ∨ op = Do_BindOnce_Member_ptr f nullptr)
            ∧ msg = "Cannot bind to a null pointer")
    ∨ (op = Do_Remove_ptr nullptr ∧ msg = "Cannot remove a null pointer")
    ∨ (op = Do_IsBound_ptr nullptr ∧ msg = "Cannot check bind of a null pointer").
Proof.
  split.
  - destruct op; cbn [step]; try done;
      unfold Bind_Callback_ptr, BindOnce_Callback_ptr, Bind_Callback_ptr_,
        Bind_Member_ptr, BindOnce_Member_ptr, Bind_Member_ptr_,
        Remove_weak, Remove_shared, Remove_ptr, IsBound_weak, IsBound_shared, IsBound_ptr,
        Cleanup, assert, shared_bool;
      repeat case_bool_decide; cbn [Checked_map]; try done; intros [= <-];
      subst; eauto 10.
  - intros [[-> ->]|[(f & [->|[->|[->| ->]]] & ->)|[[-> ->]|[-> ->]]]]; done.
Qed.

(** ** Counting after a bind and after a pass *)

Lemma all_callbacks_InternalBind_perm e bound t :
  all_callbacks (set_Binder e (InternalBind bound t (Binder e))) ≡ₚ all_callbacks e ++ [bound].
Proof.
  pose proof (all_callbacks_delete_perm (set_Binder e (InternalBind bound t (Binder e))) t) as P1.
  pose proof (all_callbacks_delete_perm e t) as P2.
  rewrite InternalBind_callbacks_of in P1.
  assert (Hd : delete t (Binds (InternalBind bound t (Binder e))) = delete t (Binds (Binder e))).
  { unfold InternalBind. destruct (Binds (Binder e) !! t); cbn [Binds]; apply delete_insert_eq. }
  unfold all_callbacks at 2 in P1. cbn [set_Binder Binder Binds] in P1. rewrite Hd in P1.
  unfold all_callbacks at 2 in P2. cbn [set_Binder Binder Binds] in P2.
  rewrite P1, P2, <- !app_assoc. apply Permutation_app_head, Permutation_app_comm.
Qed.

Lemma dom_InternalBind bound t (b : EventBinder) :
  dom (Binds (InternalBind bound t b)) = {[t]} ∪ dom (Binds b).
Proof. unfold InternalBind. destruct (Binds b !! t); cbn [Binds]; apply dom_insert_L. Qed.

Lemma size_dom_InternalBind bound t (b : EventBinder) :
  size (dom (Binds (InternalBind bound t b))) =
    if bool_decide (t ∈ dom (Binds b)) then size (dom (Binds b)) else S (size (dom (Binds b))).
Proof.
  rewrite dom_InternalBind. case_bool_decide as Hin.
  - f_equal. apply subseteq_union_1_L. by apply singleton_subseteq_l.
  - rewrite size_union, size_singleton; [done|]. by apply disjoint_singleton_l.
Qed.

Lemma Raise_dom_subseteq e a w :
  dom (Binds (Binder (Raise e a w).1)) ⊆ dom (Binds (Binder e)).
Proof.
  intros k (cb & Hcb & _)%Raise_dom. apply elem_of_dom. unfold callbacks_of in Hcb.
  destruct (Binds (Binder e) !! k); [eauto|]. by apply elem_of_nil in Hcb.
Qed.

(** X13. A bind that registers a closure adds that closure and nothing else
    to the registry, and adds the key of its object to the map if it was not
    there.  Below [INT_MAX], [CallbackCount] goes up by one; [Size] goes up
    by one when the object had no entry and stays the same when it had. *)
Theorem X13_Bind_adds_one_callback op e w t cb :
  registers op w = Some (t, cb) →
  ∃ e', step op e w = Ok (e', w)
    ∧ all_callbacks e' ≡ₚ all_callbacks e ++ [cb]
    ∧ dom (Binds (GetBinder e')) = {[t]} ∪ dom (Binds (GetBinder e))
    ∧ (Z.of_nat (length (all_callbacks e)) < INT_MAX →
         CallbackCount e' = CallbackCount e + 1)
    ∧ (Z.of_nat (size (dom (Binds (GetBinder e)))) < INT_MAX →
         Size e' = Size e + (if bool_decide (t ∈ dom (Binds (GetBinder e))) then 0 else 1)).
Proof.
  intros Hreg. exists (set_Binder e (InternalBind cb t (Binder e))).
  split; [by apply step_registers|].
  split; [apply all_callbacks_InternalBind_perm|].
  split; [apply dom_InternalBind|]. unfold INT_MAX. split.
  - intros Hlen. rewrite !CallbackCount_eq, all_callbacks_InternalBind_perm, length_app.
    cbn [length]. rewrite !to_int_small by (unfold INT_MAX; lia). lia.
  - intros Hlen. rewrite !Size_eq. unfold GetBinder in *. cbn [set_Binder Binder].
    rewrite size_dom_InternalBind.
    case_bool_decide; rewrite !to_int_small by (unfold INT_MAX; lia); lia.
Qed.

(** X14. In a reachable state with at most [INT_MAX] callbacks, after a
    pass [CallbackCount] is the number of callbacks that survived it, and
    neither [CallbackCount] nor [Size] is larger than before the pass. *)
Theorem X14_Raise_never_grows_the_counts e a w :
  reachable e w →
  Z.of_nat (length (all_callbacks e)) ≤ INT_MAX →
  CallbackCount (Raise e a w).1 =
    Z.of_nat (length (filter (λ cb, survives cb w = true) (all_callbacks e)))
  ∧ CallbackCount (Raise e a w).1 ≤ CallbackCount e
  ∧ Size (Raise e a w).1 ≤ Size e
  ∧ 0 ≤ Size (Raise e a w).1 ≤ CallbackCount (Raise e a w).1.
Proof.
  intros R Hmax. unfold INT_MAX in Hmax.
  pose proof (length_filter (λ cb, survives cb w = true) (all_callbacks e)) as Hf.
  pose proof (no_dangling_keys_le_callbacks e (reachable_no_dangling e w R)) as H1.
  pose proof (no_dangling_keys_le_callbacks _ (no_dangling_Raise e a w)) as H2.
  pose proof (subseteq_size _ _ (Raise_dom_subseteq e a w)) as H3.
  pose proof (Permutation_length (all_callbacks_Raise_perm e a w)) as H4.
  rewrite !CallbackCount_eq, !Size_eq, H4.
  rewrite H4 in H2.
  rewrite !to_int_small by (unfold INT_MAX; lia). lia.
Qed.

Lemma kept_all_survive w v :
  v ≠ [] → (∀ cb, cb ∈ v → survives cb w = true) → kept w v = Some v.
Proof.
  intros Hne Hall. unfold kept. rewrite filter_all by done. by destruct v.
Qed.

Lemma registers_live op w t cb : registers op w = Some (t, cb) → liveness cb w = true.
Proof.
  intros Hreg. destruct (weak_ref cb) as [weak|] eqn:Hweak.
  - destruct (registers_weak_live op w t cb weak Hreg Hweak) as [L _].
    destruct cb; simpl in *; try done; injection Hweak as ->; [|done].
    rewrite expired_lock in L. by apply andb_true_iff in L as [? _].
  - by destruct cb.
Qed.

(** X15. A fire-once subscription is gone after one pass.  Bind a closure
    with one of the [BindOnce] overloads in a reachable state in which every
    registered callback survives a pass: the next [Raise] invokes the new
    closure's user code and leaves the event exactly as it was before the
    bind. *)
Theorem X15_BindOnce_then_Raise_restores_the_event op e w t cb a :
  reachable e w →
  registers op w = Some (t, cb) →
  is_once cb = true →
  (∀ cb', cb' ∈ all_callbacks e → survives cb' w = true) →
  ∃ e1, step op e w = Ok (e1, w)
    ∧ (Raise e1 a w).1 = e
    ∧ times_invoked (user_fn cb) (log (Raise e1 a w).2) =
        (times_invoked (user_fn cb) (log w)
         + length (filter (λ cb', user_fn cb' = user_fn cb) (all_callbacks e)) + 1)%nat.
Proof.
  intros R Hreg Honce Hall. exists (set_Binder e (InternalBind cb t (Binder e))).
  split; [by apply step_registers|].
  pose proof (reachable_no_dangling e w R) as I.
  assert (Hdead : survives cb w = false) by (unfold survives; rewrite Honce; apply andb_false_r).
  split.
  - rewrite Raise_spec. cbn [fst set_Binder Binder Binds Name].
    assert (Hm : omap (kept w) (Binds (InternalBind cb t (Binder e))) = Binds (Binder e)).
    { apply map_eq. intros k. rewrite lookup_omap, InternalBind_lookup.
      assert (Hk : ∀ k' v, Binds (Binder e) !! k' = Some v → kept w v = Some v).
      { intros k' v Hv. apply kept_all_survive; [by apply (I k')|].
        intros cb' Hcb'. apply Hall, elem_of_all_callbacks. exists k'.
        unfold callbacks_of. by rewrite Hv. }
      destruct (decide (t = k)) as [<-|Hne].
      - cbn [option_bind mbind]. unfold kept at 1. rewrite filter_app.
        rewrite (filter_cons_False _ cb) by (by rewrite Hdead). rewrite filter_nil, app_nil_r.
        destruct (Binds (Binder e) !! t) as [v|] eqn:Hv; [|done].
        cbn [default]. exact (Hk t v Hv).
      - destruct (Binds (Binder e) !! k) as [v|] eqn:Hv; [|done]. exact (Hk k v Hv). }
    rewrite Hm. destruct e as [name [binds]]. done.
  - rewrite Raise_times_invoked, all_callbacks_InternalBind_perm, filter_app, length_app.
    rewrite (filter_cons_True _ cb)
      by (split; [done|by apply (registers_live op w t)]).
    rewrite filter_nil. cbn [length].
    rewrite (filter_ext_in _ (λ cb', user_fn cb' = user_fn cb) (all_callbacks e)); [lia|].
    intros cb' Hcb'. split; [by intros [? _]|]. intros E. split; [done|].
    specialize (Hall cb' Hcb'). unfold survives in Hall. by apply andb_true_iff in Hall as [? _].
Qed.

(** ** The arguments every callback of a pass receives *)

(** X16. What a pass hands to each callback.  [Raise] visits the callbacks
    of the registry one after the other (all of them, key by key), and every
    visit move-constructs the callback's parameters from the same [args]:
    the [n]-th callback visited (from 0) that runs user code runs it on
    [args] moved from [n] times, whether or not the callbacks before it ran
    anything.  The first one visited receives [args] itself, through
    [Raise] and through [operator()]. *)
Theorem X16_nth_callback_receives_args_moved_n_times e a w :
  let visited := mjoin (traverse (Binds (Binder e))).*2 in
  visited ≡ₚ all_callbacks e
  ∧ log (Raise e a w).2 = log w ++ mjoin (imap (delivery a w) visited)
  ∧ log (call_operator e a w).2 = log w ++ mjoin (imap (delivery a w) visited)
  ∧ (∀ i, i ∈ mjoin (imap (delivery a w) visited) →
       ∃ n cb, visited !! n = Some cb ∧ liveness cb w = true
               ∧ i = Invoked (user_fn cb) (receiver cb) (Nat.iter n moved_from a))
  ∧ (∀ cb rest, visited = cb :: rest → liveness cb w = true →
       ∃ l, log (Raise e a w).2 = log w ++ Invoked (user_fn cb) (receiver cb) a :: l).
Proof.
  intros visited.
  assert (Hlog : log (Raise e a w).2 = log w ++ mjoin (imap (delivery a w) visited)).
  { rewrite Raise_spec. cbn [snd log]. by rewrite raise_deliveries_imap. }
  split; [|split; [|split; [|split]]]; try done.
  - unfold visited, all_callbacks. by rewrite (traverse_perm (Binds (Binder e))).
  - intros i (d & Hi & (n & cb & -> & Hn)%elem_of_lookup_imap)%list_elem_of_join.
    exists n, cb. unfold delivery in Hi. destruct (liveness cb w); [|by apply elem_of_nil in Hi].
    by apply list_elem_of_singleton in Hi as ->.
  - intros cb rest Hv L. rewrite Hlog, Hv, imap_cons, mjoin_cons.
    unfold delivery at 1. rewrite L. cbn [Nat.iter nat_rect app]. eauto.
Qed.

(** X17. When moving the arguments copies them (an [Event<int>], say),
    a pass hands the arguments [Raise] was called with to every listener: the
    invocations it adds to the log are, entry for entry and in the order of
    the visit, one per visited callback whose liveness test passes, running
    that callback's user code on its receiver with those arguments; and the
    visit goes through every registered callback once. *)
Theorem X17_copyable_arguments_reach_every_listener e a w :
  trivially_copyable A →
  let visited := mjoin (traverse (Binds (Binder e))).*2 in
  ∃ l, log (Raise e a w).2 = log w ++ l
       ∧ visited ≡ₚ all_callbacks e
       ∧ l = (λ cb, Invoked (user_fn cb) (receiver cb) a)
               <$> filter (λ cb, liveness cb w = true) visited
       ∧ l ≡ₚ (λ cb, Invoked (user_fn cb) (receiver cb) a)
                <$> filter (λ cb, liveness cb w = true) (all_callbacks e).
Proof.
  intros T visited.
  assert (Hperm : visited ≡ₚ all_callbacks e).
  { unfold visited, all_callbacks. by rewrite (traverse_perm (Binds (Binder e))). }
  assert (Hl : raise_deliveries (traverse (Binds (Binder e))) a w =
               (λ cb, Invoked (user_fn cb) (receiver cb) a)
                 <$> filter (λ cb, liveness cb w = true) visited).
  { rewrite (invocations_same_args (raise_deliveries _ a w) a)
      by (intros i; by apply Raise_args_trivially_copyable).
    by rewrite raise_deliveries_who, <- list_fmap_compose. }
  exists (raise_deliveries (traverse (Binds (Binder e))) a w).
  split; [by rewrite Raise_spec|]. split; [done|]. split; [done|].
  by rewrite Hl, Hperm.
Qed.

(** ** Objects that go away while they are subscribed *)

Lemma expired_destroy weak c w :
  expired weak (destroy c w) = bool_decide (wk_ctrl weak = Some c) || expired weak w.
Proof.
  unfold expired. destruct (wk_ctrl weak) as [c'|]; cbn [destroy expired_blocks]; [|done].
  destruct (decide (c' = c)) as [->|Hne].
  - rewrite (bool_decide_eq_true_2 (Some c = Some c)) by done.
    apply bool_decide_eq_true_2, elem_of_union. left. by apply elem_of_singleton.
  - rewrite (bool_decide_eq_false_2 (Some c' = Some c)) by congruence.
    apply bool_decide_ext. rewrite elem_of_union, elem_of_singleton. tauto.
Qed.

Lemma liveness_destroy cb c w :
  liveness cb (destroy c w) =
    if bool_decide (tested_block cb = Some c) then false else liveness cb w.
Proof.
  destruct cb as [| weak ? ? | weak ? ? | |]; unfold tested_block; cbn [weak_ref liveness];
    try (by rewrite bool_decide_eq_false_2).
  - rewrite expired_destroy. by destruct (bool_decide (wk_ctrl weak = Some c)).
  - rewrite !expired_lock, expired_destroy. by destruct (bool_decide (wk_ctrl weak = Some c)).
Qed.

Lemma elem_of_dom_size (X : gset Z) k : k ∈ X → (1 ≤ size X)%nat.
Proof.
  intros Hk. destruct (size X) eqn:E; [|lia].
  apply size_empty_inv in E. apply (E k) in Hk. by apply not_elem_of_empty in Hk.
Qed.

(** X18. When the last owner of an object goes away, the closures that test
    that object's control block (those bound through a weak or shared
    pointer to it) fail their test from then on, and no other closure is
    affected: a closure bound with a raw pointer or without an object never
    notices.  The next [Raise] therefore runs only closures that do not test
    the destroyed object, and leaves none of those that do in the
    registry. *)
Theorem X18_destroyed_object_is_skipped_and_dropped e w c a :
  let w1 := destroy c w in
  step (Env_destroy c) e w = Ok (e, w1)
  ∧ (∀ cb, liveness cb w1 =
            if bool_decide (tested_block cb = Some c) then false else liveness cb w)
  ∧ (∀ cb, weak_ref cb = None → liveness cb w1 = true)
  ∧ (∀ cb, cb ∈ all_callbacks (Raise e a w1).1 →
       cb ∈ all_callbacks e ∧ tested_block cb ≠ Some c)
  ∧ ∃ l, log (Raise e a w1).2 = log w ++ l
         ∧ ∀ i, i ∈ l → ∃ cb, cb ∈ all_callbacks e ∧ tested_block cb ≠ Some c
                              ∧ inv_fn i = user_fn cb ∧ inv_this i = receiver cb.
Proof.
  intros w1.
  assert (Hlive : ∀ cb, liveness cb w1 = true → tested_block cb ≠ Some c).
  { intros cb L E. unfold w1 in L. rewrite liveness_destroy, bool_decide_eq_true_2 in L; done. }
  split; [done|]. split; [intros cb; apply liveness_destroy|]. split; [by intros []|]. split.
  - intros cb [Hcb S]%elem_of_all_callbacks_Raise. split; [done|].
    apply Hlive. unfold survives in S. by apply andb_true_iff in S as [? _].
  - exists (raise_deliveries (traverse (Binds (Binder e))) a w1).
    split; [by rewrite Raise_spec|]. intros i Hi.
    destruct (raise_deliveries_from _ _ _ _ Hi) as (cb & Hcb & L & Hf & Ht).
    exists cb. split; [|by auto].
    unfold all_callbacks. by rewrite <- (traverse_perm (Binds (Binder e))).
Qed.

(** X19. Until the next [Raise], the entry of a destroyed object stays in
    the map.  In a reachable state holding a closure whose weak reference has
    expired: [IsBound] of the weak reference answers [false] while [IsBound]
    of the object's address answers [true]; the key is still in the map and
    the closure still in the registry; and the next [Raise] leaves fewer
    callbacks than there were.  While the event holds at most [INT_MAX]
    callbacks, [Size] and [CallbackCount] therefore still count the entry,
    and the next [Raise] lowers [CallbackCount]. *)
Theorem X19_destroyed_object_is_counted_until_the_next_Raise e w k cb weak :
  reachable e w →
  cb ∈ callbacks_of k e →
  weak_ref cb = Some weak →
  expired weak w = true →
  IsBound_weak weak w (GetBinder e) = Ok false
  ∧ IsBound_ptr k (GetBinder e) = Ok true
  ∧ k ∈ dom (Binds (GetBinder e))
  ∧ cb ∈ all_callbacks e
  ∧ (∀ a, (length (all_callbacks (Raise e a w).1) < length (all_callbacks e))%nat)
  ∧ (Z.of_nat (length (all_callbacks e)) ≤ INT_MAX →
       1 ≤ Size e
       ∧ 1 ≤ CallbackCount e
       ∧ ∀ a, CallbackCount (Raise e a w).1 < CallbackCount e).
Proof.
  intros R Hcb Hweak Hexp.
  pose proof (reachable_no_dangling e w R) as I.
  destruct (reachable_bound_key e w k cb R Hcb) as [_ Hk].
  assert (Hall : cb ∈ all_callbacks e) by (apply elem_of_all_callbacks; eauto).
  assert (Hdom : k ∈ dom (Binds (Binder e))).
  { apply (no_dangling_dom e k I). intros E. rewrite E in Hcb. by apply elem_of_nil in Hcb. }
  pose proof (elem_of_dom_size _ k Hdom) as Hsize.
  pose proof (no_dangling_keys_le_callbacks e I) as Hle.
  assert (Hdead : ¬ survives cb w = true).
  { unfold survives. by rewrite (expired_weak_dead cb weak w Hweak Hexp). }
  assert (Hlt : ∀ a, (length (all_callbacks (Raise e a w).1) < length (all_callbacks e))%nat).
  { intros a. rewrite (Permutation_length (all_callbacks_Raise_perm e a w)).
    by apply (length_filter_lt _ _ cb). }
  split; [by apply IsBound_weak_expired|].
  split; [rewrite IsBound_ptr_spec by done; by rewrite bool_decide_eq_true_2|].
  split; [done|]. split; [done|]. split; [done|].
  intros Hmax. unfold INT_MAX in Hmax.
  rewrite Size_eq, !CallbackCount_eq, !to_int_small by (unfold INT_MAX; lia).
  split; [lia|]. split; [lia|]. intros a. specialize (Hlt a).
  rewrite CallbackCount_eq, to_int_small by (unfold INT_MAX; lia). lia.
Qed.

(** ** Binding the same callback again *)

Lemma run_replicate_bind op w t cb n e :
  registers op w = Some (t, cb) →
  ∃ e', run (replicate n op) e w = Ok (e', w)
        ∧ all_callbacks e' ≡ₚ all_callbacks e ++ replicate n cb
        ∧ callbacks_of t e' = callbacks_of t e ++ replicate n cb.
Proof.
  intros Hreg. revert e. induction n as [|n IH]; intros e.
  - exists e. cbn [replicate run]. by rewrite !app_nil_r.
  - destruct (IH (set_Binder e (InternalBind cb t (Binder e)))) as (e' & Hrun & Hall & Hk).
    exists e'. cbn [replicate run]. rewrite (step_registers op e w t cb Hreg).
    split; [done|]. split.
    + by rewrite Hall, all_callbacks_InternalBind_perm, <- app_assoc.
    + by rewrite Hk, InternalBind_callbacks_of, <- app_assoc.
Qed.

(** X20. The binder keeps no record of what is already bound: running the
    same bind [n] times registers [n] closures, and the next [Raise] invokes
    their user code [n] times, on top of the invocations it owes to the
    callbacks that were registered before. *)
Theorem X20_binding_again_subscribes_again op e w t cb n a :
  registers op w = Some (t, cb) →
  ∃ e', run (replicate n op) e w = Ok (e', w)
    ∧ all_callbacks e' ≡ₚ all_callbacks e ++ replicate n cb
    ∧ times_invoked (user_fn cb) (log (Raise e' a w).2) =
        (times_invoked (user_fn cb) (log w) + n
         + length (filter (λ cb', user_fn cb' = user_fn cb ∧ liveness cb' w = true)
                     (all_callbacks e)))%nat.
Proof.
  intros Hreg. destruct (run_replicate_bind op w t cb n e Hreg) as (e' & Hrun & Hall & _).
  exists e'. split; [done|]. split; [done|].
  rewrite Raise_times_invoked, Hall, filter_app, length_app.
  rewrite (filter_all _ (replicate n cb)), length_replicate; [lia|].
  intros cb' [-> _]%elem_of_replicate. split; [done|]. by apply (registers_live op w t).
Qed.

(** ** What the unspecified iteration order can change *)

End Properties.

(** * Two traversals of the same map *)

Section Orders.
Context {A : Type} `{Movable A} (T1 T2 : Traversal).

(** X21. The order in which [Raise] walks the [unordered_map] is
    unspecified.  Whatever it is, the pass leaves the same registry; it
    invokes the same user code on the same receivers the same number of times,
    in a possibly different order; and when moving the arguments copies
    them, the invocations themselves are the same up to their order. *)
Theorem X21_iteration_order_only_reorders_the_invocations
    (e : Event) (a : A) (w : @World A) :
  let r1 := @Raise A _ T1 e a w in
  let r2 := @Raise A _ T2 e a w in
  r1.1 = r2.1
  ∧ expired_blocks r1.2 = expired_blocks r2.2
  ∧ ∃ l1 l2, log r1.2 = log w ++ l1 ∧ log r2.2 = log w ++ l2
      ∧ (λ i, (inv_fn i, inv_this i)) <$> l1 ≡ₚ (λ i, (inv_fn i, inv_this i)) <$> l2
      ∧ (trivially_copyable A → l1 ≡ₚ l2).
Proof.
  intros r1 r2. unfold r1, r2. rewrite (@Raise_spec A _ T1), (@Raise_spec A _ T2).
  cbn [fst snd expired_blocks log]. split; [done|]. split; [done|].
  exists (raise_deliveries (@traverse T1 (Binds (Binder e))) a w),
         (raise_deliveries (@traverse T2 (Binds (Binder e))) a w).
  split; [done|]. split; [done|].
  assert (Hwho : (λ i, (inv_fn i, inv_this i)) <$>
                   raise_deliveries (@traverse T1 (Binds (Binder e))) a w
                 ≡ₚ (λ i, (inv_fn i, inv_this i)) <$>
                   raise_deliveries (@traverse T2 (Binds (Binder e))) a w).
  { rewrite !raise_deliveries_who.
    by rewrite (@traverse_perm T1 (Binds (Binder e))), (@traverse_perm T2 (Binds (Binder e))). }
  split; [done|]. intros T.
  rewrite (invocations_same_args (raise_deliveries (@traverse T1 _) a w) a)
    by (intros i; by apply (@Raise_args_trivially_copyable A _ T1)).
  rewrite (invocations_same_args (raise_deliveries (@traverse T2 _) a w) a)
    by (intros i; by apply (@Raise_args_trivially_copyable A _ T2)).
  by rewrite Hwho.
Qed.

End Orders.

(** * The properties on concrete programs *)

Lemma after_reachable {A : Type} `{Movable A} (ops : list (@Operation A)) :
  reachable (after ops).1 (after ops).2.
Proof.
  unfold after. destruct (run ops _ _) as [[e w]|] eqn:R.
  - apply (run_reachable ops (new_Event "OnEvent") fresh); [constructor|done].
  - constructor.
Qed.

(** The test "Member function binding with weak_ptr auto expires": the
    object is destroyed after one pass; the next pass evicts its closure. *)
Lemma C1_witness :
  let e := (after weak_then_destroyed).1 in
  let w := (after weak_then_destroyed).2 in
  let cb := bound_Member_weak (weak_of strong) 1%nat false in
  (cb ∈ callbacks_of 100 e ∧ weak_ref cb = Some (weak_of strong)
   ∧ expired (weak_of strong) w = true)
  ∧ ((∀ a : Z, call cb a w = (false, w))
     ∧ (cb ∉ all_callbacks (Raise e 6 w).1)
     ∧ times_invoked (user_fn cb) (log (Raise e 6 w).2) =
         (times_invoked (user_fn cb) (log w)
          + length (filter (λ cb', user_fn cb' = user_fn cb ∧ liveness cb' w = true)
                      (filter (λ cb', cb' ≠ cb) (all_callbacks e))))%nat
     ∧ IsBound_weak (weak_of strong) (Raise e 6 w).2 (Binder (Raise e 6 w).1) = Ok false
     ∧ Size (Raise e 6 w).1 =
         to_int (to_size_t (Z.of_nat (size (dom (Binds (Binder (Raise e 6 w).1))))))
     ∧ (100 ∈ dom (Binds (Binder (Raise e 6 w).1)) ↔
        ∃ cb', cb' ∈ callbacks_of 100 e ∧ survives cb' w = true)).
Proof.
  intros e w cb.
  assert (Hin : cb ∈ callbacks_of 100 e) by (vm_compute; left).
  assert (Hexp : expired (weak_of strong) w = true) by (vm_compute; reflexivity).
  split; [done|].
  exact (C1_expired_weak_subscription_evicted e w 6 cb (weak_of strong) 100 Hin eq_refl Hexp).
Defined.

(** C1 as stated fails when the key also holds a callback that survives:
    the lambda bound with the raw pointer of the same object is still
    registered after the pass, so [Size] still counts the key. *)
Lemma C1_counterexample :
  let e := (after weak_and_raw_then_destroyed).1 in
  let w := (after weak_and_raw_then_destroyed).2 in
  reachable e w
  ∧ bound_Member_weak (weak_of strong) 1%nat false ∈ callbacks_of 100 e
  ∧ expired (weak_of strong) w = true
  ∧ 100 ∈ dom (Binds (Binder (Raise e 6 w).1))
  ∧ callbacks_of 100 (Raise e 6 w).1 = [bound_Callback_ptr 2%nat 100 false]
  ∧ Size (Raise e 6 w).1 = 1.
Proof.
  intros e w. split; [apply after_reachable|].
  split; [vm_compute; left|].
  split; [vm_compute; reflexivity|].
  split; [apply elem_of_dom; vm_compute; eauto|].
  split; vm_compute; reflexivity.
Qed.

Example weak_ptr_auto_expires :
  let e := (after weak_then_destroyed).1 in
  let w := (after weak_then_destroyed).2 in
  Size e = 1 ∧ log w = [Invoked 1%nat (Some 100) 5]
  ∧ Size (Raise e 6 w).1 = 0 ∧ log (Raise e 6 w).2 = log w.
Proof. vm_compute. done. Qed.

(** The test "BindOnce with member function": [Add] is bound once to the
    object at address 100 and the event is raised with 5, then with 10. *)
Lemma C2_witness :
  let e := (after (A:=Z) [Do_BindOnce_Member_ptr 1%nat 100]).1 in
  let w : @World Z := fresh in
  let f := 1%nat in
  Forall (λ cb, is_once cb = true) (filter (λ cb, user_fn cb = f) (all_callbacks e))
  ∧ (times_invoked f (log (Raise e 5 w).2) =
       (times_invoked f (log w)
        + length (filter (λ cb, liveness cb w = true)
                    (filter (λ cb, user_fn cb = f) (all_callbacks e))))%nat
     ∧ times_invoked f (log (Raise_each [5; 10] e w).2) =
         times_invoked f (log (Raise e 5 w).2)
     ∧ (∀ cb, filter (λ cb', user_fn cb' = f) (all_callbacks e) = [cb] →
          times_invoked f (log (Raise_each [5; 10] e w).2) =
            (times_invoked f (log w) + if liveness cb w then 1 else 0)%nat)
     ∧ (∀ ops e' w',
          Forall (λ op, ∀ w0 t cb, registers op w0 = Some (t, cb) → user_fn cb ≠ f) ops →
          run ops (Raise e 5 w).1 (Raise e 5 w).2 = Ok (e', w') →
          times_invoked f (log w') = times_invoked f (log (Raise e 5 w).2))
     ∧ filter (λ cb, user_fn cb = f) (all_callbacks (Raise e 5 w).1) = []
     ∧ (∀ cb, cb ∈ all_callbacks (Raise e 5 w).1 → is_once cb = false)
     ∧ (∀ cb, weak_ref cb = None → liveness cb w = true)
     ∧ (reachable e w → ∀ cb weak, cb ∈ all_callbacks e → weak_ref cb = Some weak →
          liveness cb w = negb (expired weak w))).
Proof.
  intros e w f.
  assert (Honce : Forall (λ cb, is_once cb = true)
                    (filter (λ cb, user_fn cb = f) (all_callbacks e)))
    by (vm_compute; repeat constructor).
  split; [done|].
  exact (C2_once_invoked_exactly_once e w f 5 [10] Honce).
Defined.

Example BindOnce_with_member_function :
  let e := (after (A:=Z) [Do_BindOnce_Member_ptr 1%nat 100]).1 in
  all_callbacks e = [bound_Member_ptr 100 1%nat true]
  ∧ log (Raise_each [5; 10] e fresh).2 = [Invoked 1%nat (Some 100) 5]
  ∧ times_invoked 1%nat (log (Raise_each [5; 10] e fresh).2) = 1%nat
  ∧ Size (Raise_each [5; 10] e fresh).1 = 0.
Proof. vm_compute. done. Qed.

(** Three lambdas are bound without an object, the second one to fire
    once. *)
Lemma C3_witness :
  let ops := [Do_Bind_Callback 1%nat; Do_BindOnce_Callback 2%nat; Do_Bind_Callback 3%nat] in
  let cbs := [bound_Callback 1%nat false; bound_Callback 2%nat true;
              bound_Callback 3%nat false] in
  let e := new_Event "OnMulti" in
  let t := StandaloneCallbackKey in
  let w : @World Z := fresh in
  Forall2 (λ op cb, registers op w = Some (t, cb)) ops cbs
  ∧ ∃ e', run ops e w = Ok (e', w)
      ∧ callbacks_of t e' = callbacks_of t e ++ cbs
      ∧ ∀ args : Z, ∃ l1 l2,
          NoDup (l1 ++ l2).*1
          ∧ (∀ k v, (k, v) ∈ l1 ++ l2 ↔ k ≠ t ∧ Binds (Binder e') !! k = Some v)
          ∧ log (Raise e' args w).2 =
              log w
              ++ mjoin (imap (delivery args w) (mjoin l1.*2))
              ++ mjoin (imap (delivery (Nat.iter (length (mjoin l1.*2)) moved_from args) w)
                          (callbacks_of t e ++ cbs))
              ++ mjoin (imap (delivery
                                (Nat.iter (length (mjoin l1.*2 ++ callbacks_of t e ++ cbs))
                                   moved_from args) w)
                          (mjoin l2.*2))
          ∧ inv_fn <$> mjoin (imap (delivery (Nat.iter (length (mjoin l1.*2)) moved_from args) w)
                                (callbacks_of t e ++ cbs)) =
              user_fn <$> filter (λ cb, liveness cb w = true) (callbacks_of t e ++ cbs).
Proof.
  intros ops cbs e t w.
  assert (Hreg : Forall2 (λ op cb, registers op w = Some (t, cb)) ops cbs)
    by (repeat constructor).
  split; [done|].
  exact (C3_same_key_bind_order ops cbs t e w Hreg).
Defined.

Example three_lambdas_in_bind_order :
  let e := (after (A:=Z) [Do_Bind_Callback 1%nat; Do_BindOnce_Callback 2%nat; Do_Bind_Callback 3%nat]).1 in
  inv_fn <$> log (Raise e 7 fresh).2 = [1; 2; 3]%nat
  ∧ inv_fn <$> log (Raise_each [7; 8] e fresh).2 = [1; 2; 3; 1; 3]%nat.
Proof. vm_compute. done. Qed.

(** The event of the weak-pointer test, after the object was destroyed. *)
Lemma C4_witness :
  let e := (after weak_then_destroyed).1 in
  let w := (after weak_then_destroyed).2 in
  reachable e w
  ∧ ((∀ k, k ∈ dom (Binds (Binder e)) ↔ callbacks_of k e ≠ [])
     ∧ (∀ op e' w', step op e w = Ok (e', w') →
          ∀ k, k ∈ dom (Binds (Binder e')) ↔ callbacks_of k e' ≠ [])
     ∧ (∀ args k, (∀ cb, cb ∈ callbacks_of k e → survives cb w = false) →
          (k ∉ dom (Binds (Binder (Raise e args w).1)))
          ∧ callbacks_of k (Raise e args w).1 = [])).
Proof.
  intros e w.
  assert (R : reachable e w) by apply after_reachable.
  split; [done|]. exact (C4_key_present_iff_sequence_nonempty e w R).
Defined.

(** C5, evaluated. Two lambdas listen to an [Event<std::shared_ptr<T>>] and
    the event is raised with a non-empty pointer: the first lambda is handed
    the pointer, the second the empty pointer the first call left behind,
    because every call move-constructs its parameters from the same
    [args]. *)
Theorem C5_second_listener_receives_moved_from_argument :
  let e := (after two_listeners).1 in
  callbacks_of StandaloneCallbackKey e = [bound_Callback 1%nat false; bound_Callback 2%nat false]
  ∧ log (Raise e payload fresh).2 =
      [Invoked 1%nat None payload; Invoked 2%nat None empty_shared]
  ∧ payload ≠ empty_shared.
Proof. vm_compute. repeat split; discriminate. Qed.

(** With an [Event<int>] the same program hands both lambdas the same
    value. *)
Example two_listeners_int :
  log (Raise (after (A:=Z) [Do_Bind_Callback 1%nat; Do_Bind_Callback 2%nat]).1 7 fresh).2 =
    [Invoked 1%nat None 7; Invoked 2%nat None 7].
Proof. vm_compute. reflexivity. Qed.

(** Binding again through the weak reference of the destroyed object. *)
Lemma C6_witness :
  let e := (after weak_then_destroyed).1 in
  let w := (after weak_then_destroyed).2 in
  let weak := weak_of strong in
  let f := 3%nat in
  expired weak w = true
  ∧ ((step (Do_Bind_Callback_ptr f nullptr) e w = AssertionFailed "Cannot bind to a null pointer"
      ∧ step (Do_BindOnce_Callback_ptr f nullptr) e w
        = AssertionFailed "Cannot bind to a null pointer"
      ∧ step (Do_Bind_Member_ptr f nullptr) e w = AssertionFailed "Cannot bind to a null pointer"
      ∧ step (Do_BindOnce_Member_ptr f nullptr) e w
        = AssertionFailed "Cannot bind to a null pointer")
     ∧ (step (Do_Bind_Callback_weak f weak) e w = Ok (e, w)
        ∧ step (Do_BindOnce_Callback_weak f weak) e w = Ok (e, w)
        ∧ step (Do_Bind_Member_weak f weak) e w = Ok (e, w)
        ∧ step (Do_BindOnce_Member_weak f weak) e w = Ok (e, w))
     ∧ (∀ bindOnce,
          Bind_Callback_weak_ f weak bindOnce w (Binder e) = Binder e
          ∧ Bind_Member_weak_ f weak bindOnce w (Binder e) = Binder e)).
Proof.
  intros e w weak f.
  assert (E : expired weak w = true) by (vm_compute; reflexivity).
  split; [done|].
  exact (C6_null_pointer_asserts_expired_weak_is_noop e w f weak E).
Defined.

(** The test "Remove by raw pointer works". *)
Lemma C7_witness :
  let e := (after (A:=Z) [Do_Bind_Member_ptr 1%nat 100]).1 in
  let w : @World Z := (after (A:=Z) [Do_Bind_Member_ptr 1%nat 100]).2 in
  let t := 100 in
  let ptr := weak_of strong in
  reachable e w
  ∧ ((t ≠ nullptr →
        Remove_ptr t (Binder e) =
          Ok (bool_decide (t ∈ dom (Binds (Binder e))),
              {| Binds := delete t (Binds (Binder e)) |}))
     ∧ (t ∈ dom (Binds (Binder e)) →
          ∃ b1, Remove_ptr t (Binder e) = Ok (true, b1)
                ∧ Binds b1 !! t = None
                ∧ Remove_ptr t b1 = Ok (false, b1))
     ∧ (t ≠ nullptr → t ∉ dom (Binds (Binder e)) →
          Remove_ptr t (Binder e) = Ok (false, Binder e))
     ∧ (expired ptr w = true → Remove_weak ptr w (Binder e) = Ok (false, Binder e))
     ∧ (shared_bool (lock ptr w) = true →
          wk_ptr ptr ≠ nullptr
          ∧ ∀ b, Remove_weak ptr w b = Remove_ptr (wk_ptr ptr) b)).
Proof.
  intros e w t ptr.
  assert (R : reachable e w) by apply after_reachable.
  split; [done|]. exact (C7_Remove_reports_presence e w t ptr R).
Defined.

Example Remove_twice :
  let b := Binder (after (A:=Z) [Do_Bind_Member_ptr 1%nat 100]).1 in
  Remove_ptr 100 b = Ok (true, {| Binds := ∅ |})
  ∧ Remove_ptr 100 {| Binds := ∅ |} = Ok (false, {| Binds := ∅ |})
  ∧ Remove_ptr 200 b = Ok (false, b).
Proof. vm_compute. done. Qed.

(** The test "Multiple callbacks are invoked": two lambdas, one key. *)
Lemma C9_witness :
  let e := (after (A:=Z) [Do_Bind_Callback 1%nat; Do_Bind_Callback 2%nat; Do_Raise 7]).1 in
  let w := (after (A:=Z) [Do_Bind_Callback 1%nat; Do_Bind_Callback 2%nat; Do_Raise 7]).2 in
  (reachable e w ∧ Z.of_nat (length (all_callbacks e)) ≤ INT_MAX)
  ∧ (Size e = Z.of_nat (size (dom (Binds (Binder e))))
     ∧ CallbackCount e = Z.of_nat (length (all_callbacks e))
     ∧ 0 ≤ Size e ≤ CallbackCount e
     ∧ step Do_Size e w = Ok (e, w)
     ∧ step Do_CallbackCount e w = Ok (e, w)).
Proof.
  intros e w.
  assert (R : reachable e w) by apply after_reachable.
  assert (Hmax : Z.of_nat (length (all_callbacks e)) ≤ INT_MAX) by (vm_compute; discriminate).
  split; [done|]. exact (C9_counts_within_int_range e w R Hmax).
Defined.

Example Multiple_callbacks_counts :
  let e := (after (A:=Z) [Do_Bind_Callback 1%nat; Do_Bind_Callback 2%nat; Do_Raise 7]).1 in
  CallbackCount e = 2 ∧ Size e = 1.
Proof. vm_compute. done. Qed.

(** C9 as stated fails once the counts leave the range of [int]: after
    2^31 calls of [Bind] with a lambda the event holds one key and 2^31
    callbacks, [Size] is 1 and [CallbackCount] is -2^31. *)
Lemma C9_counterexample :
  let e := bind_many (Z.to_nat 2147483648) (new_Event "OnEvent") in
  reachable e (@fresh Z)
  ∧ Z.of_nat (length (all_callbacks e)) = 2147483648
  ∧ Size e = 1
  ∧ CallbackCount e = -2147483648
  ∧ ¬ (0 ≤ Size e ≤ CallbackCount e).
Proof.
  intros e.
  assert (Hpos : (0 < Z.to_nat 2147483648)%nat) by lia.
  destruct (bind_many_counts (Z.to_nat 2147483648) "OnEvent" Hpos) as [Hlen Hsize].
  fold e in Hlen, Hsize.
  assert (HS : Size e = 1).
  { rewrite Size_eq, Hsize. reflexivity. }
  assert (HC : CallbackCount e = -2147483648).
  { rewrite CallbackCount_eq, Hlen, Z2Nat.id by lia. reflexivity. }
  split; [apply bind_many_reachable; constructor|].
  split; [rewrite Hlen; apply Z2Nat.id; lia|].
  split; [exact HS|]. split; [exact HC|].
  rewrite HS, HC. lia.
Qed.

(** ** The further properties, on the programs of the test suite *)

Lemma for_all_elements {T : Type} (P : T → Prop) (l : list T) :
  Forall P l → ∀ x, x ∈ l → P x.
Proof. apply Forall_forall. Qed.

(** X4 on an event with a member function bound by raw pointer and a
    lambda. *)
Lemma X4_witness :
  let e := (after object_and_lambda).1 in
  let w := (after object_and_lambda).2 in
  reachable e w
  ∧ ((Raise e 5 w).1 = e ↔ ∀ cb, cb ∈ all_callbacks e → survives cb w = true).
Proof.
  intros e w.
  assert (R : reachable e w) by apply after_reachable.
  split; [done|]. exact (X4_Raise_changes_nothing_iff_all_survive e 5 w R).
Defined.

(** The test "Member function binding with raw pointer": two passes, two
    invocations. *)
Lemma X5_witness :
  let e := (after object_and_lambda).1 in
  let w : @World Z := fresh in
  let f := 1%nat in
  (∀ cb, cb ∈ all_callbacks e → user_fn cb = f → survives cb w = true)
  ∧ (times_invoked f (log (Raise_each [5; 6] e w).2) =
       (times_invoked f (log w)
        + length [5; 6] * length (filter (λ cb, user_fn cb = f) (all_callbacks e)))%nat
     ∧ filter (λ cb, user_fn cb = f) (all_callbacks (Raise_each [5; 6] e w).1) ≡ₚ
         filter (λ cb, user_fn cb = f) (all_callbacks e)
     ∧ (∀ cb, weak_ref cb = None → is_once cb = false → survives cb w = true)).
Proof.
  intros e w f.
  assert (Hf : ∀ cb, cb ∈ all_callbacks e → user_fn cb = f → survives cb w = true).
  { refine (for_all_elements (λ cb, user_fn cb = f → survives cb w = true) _ _).
    vm_compute. repeat (constructor; try done). }
  split; [done|]. exact (X5_repeat_subscription_runs_on_every_Raise e w f [5; 6] Hf).
Defined.

(** The test "Remove by weak_ptr works", before the removal. *)
Lemma X6_witness :
  let op : @Operation Z := Do_Bind_Member_weak 1%nat (weak_of strong) in
  let e := new_Event "OnIncrement" in
  let w : @World Z := fresh in
  let t := 100 in
  let cb := bound_Member_weak (weak_of strong) 1%nat false in
  registers op w = Some (t, cb)
  ∧ ∃ e', step op e w = Ok (e', w)
      ∧ IsBound_ptr t (GetBinder e') = Ok true
      ∧ (∀ weak, weak_ref cb = Some weak → IsBound_weak weak w (GetBinder e') = Ok true)
      ∧ (∀ shared, weak_ref cb = Some (weak_of shared) →
           IsBound_shared shared (GetBinder e') = Ok true)
      ∧ (∀ k, k ≠ t →
           callbacks_of k e' = callbacks_of k e
           ∧ IsBound_ptr k (GetBinder e') = IsBound_ptr k (GetBinder e))
      ∧ GetName e' = GetName e.
Proof.
  intros op e w t cb.
  assert (Hreg : registers op w = Some (t, cb)) by reflexivity.
  split; [done|]. exact (X6_Bind_makes_the_object_bound op e w t cb Hreg).
Defined.

(** The test "Remove by weak_ptr works". *)
Lemma X7_witness :
  let op : @Operation Z := Do_Bind_Member_weak 1%nat (weak_of strong) in
  let e := (after (A:=Z) [Do_Bind_Callback 2%nat]).1 in
  let w : @World Z := fresh in
  let t := 100 in
  let cb := bound_Member_weak (weak_of strong) 1%nat false in
  (registers op w = Some (t, cb) ∧ Binds (Binder e) !! t = None)
  ∧ (run [op; Do_Remove_ptr t] e w = Ok (e, w)
     ∧ (∀ weak, weak_ref cb = Some weak → run [op; Do_Remove_weak weak] e w = Ok (e, w))
     ∧ (∀ shared, weak_ref cb = Some (weak_of shared) →
          run [op; Do_Remove_shared shared] e w = Ok (e, w))).
Proof.
  intros op e w t cb.
  assert (Hreg : registers op w = Some (t, cb)) by reflexivity.
  assert (Hnone : Binds (Binder e) !! t = None) by (vm_compute; reflexivity).
  split; [done|]. exact (X7_Bind_then_Remove_restores_the_event op e w t cb Hreg Hnone).
Defined.

(** The test "IsBound detects bindings". *)
Lemma X8_witness :
  let e := (after object_and_lambda).1 in
  let w := (after object_and_lambda).2 in
  let t := 100 in
  (reachable e w ∧ t ≠ nullptr)
  ∧ ((∀ k cb, cb ∈ callbacks_of k e → bound_key cb = k ∧ k ≠ nullptr)
     ∧ ∃ r, IsBound_ptr t (GetBinder e) = Ok r
            ∧ (r = true ↔ ∃ cb, cb ∈ all_callbacks e ∧ bound_key cb = t)).
Proof.
  intros e w t.
  assert (R : reachable e w) by apply after_reachable.
  assert (Ht : t ≠ nullptr) by (vm_compute; discriminate).
  split; [done|]. exact (X8_IsBound_finds_the_callbacks_built_for_the_object e w t R Ht).
Defined.

(** The test "Remove by raw pointer works", with a lambda that stays. *)
Lemma X9_witness :
  let e := (after object_and_lambda).1 in
  let w := (after object_and_lambda).2 in
  let t := 100 in
  (reachable e w ∧ t ≠ nullptr)
  ∧ ∃ e', step (Do_Remove_ptr t) e w = Ok (e', w)
      ∧ all_callbacks e' ≡ₚ filter (λ cb, bound_key cb ≠ t) (all_callbacks e)
      ∧ (∀ k, k ≠ t → callbacks_of k e' = callbacks_of k e)
      ∧ callbacks_of t e' = []
      ∧ IsBound_ptr t (GetBinder e') = Ok false
      ∧ GetName e' = GetName e.
Proof.
  intros e w t.
  assert (R : reachable e w) by apply after_reachable.
  assert (Ht : t ≠ nullptr) by (vm_compute; discriminate).
  split; [done|]. exact (X9_Remove_drops_exactly_the_callbacks_of_the_object e w t R Ht).
Defined.

(** The object at address 100 is removed; the event is then raised, a
    lambda is bound, and the event is raised again: the member function
    [1] is not called. *)
Lemma X10_witness :
  let e := (after object_and_lambda).1 in
  let w := (after object_and_lambda).2 in
  let t := 100 in
  let f := 1%nat in
  let ops : list (@Operation Z) := [Do_Raise 5; Do_Bind_Callback 3%nat; Do_Raise 6] in
  let s' := after (object_and_lambda ++ Do_Remove_ptr t :: ops) in
  (reachable e w ∧ t ≠ nullptr
   ∧ (∀ cb, cb ∈ all_callbacks e → user_fn cb = f → bound_key cb = t)
   ∧ Forall (λ op, ∀ w0 t' cb, registers op w0 = Some (t', cb) → user_fn cb ≠ f) ops
   ∧ run (Do_Remove_ptr t :: ops) e w = Ok (s'.1, s'.2))
  ∧ times_invoked f (log s'.2) = times_invoked f (log w).
Proof.
  intros e w t f ops s'.
  assert (R : reachable e w) by apply after_reachable.
  assert (Ht : t ≠ nullptr) by (vm_compute; discriminate).
  assert (Hf : ∀ cb, cb ∈ all_callbacks e → user_fn cb = f → bound_key cb = t).
  { refine (for_all_elements (λ cb, user_fn cb = f → bound_key cb = t) _ _).
    vm_compute. repeat (constructor; try done). }
  assert (Hops : Forall (λ op, ∀ w0 t' cb, registers op w0 = Some (t', cb) → user_fn cb ≠ f) ops).
  { repeat constructor; try done. intros w0 t' cb [= <- <-]. vm_compute. discriminate. }
  assert (Hrun : run (Do_Remove_ptr t :: ops) e w = Ok (s'.1, s'.2)) by (vm_compute; reflexivity).
  split; [done|].
  exact (X10_removed_object_is_not_called_again e w t f ops s'.1 s'.2 R Ht Hf Hops Hrun).
Defined.

(** A lambda is bound, the event is raised, an object is destroyed. *)
Lemma X11_witness :
  let ops : list (@Operation Z) := [Do_Bind_Callback 1%nat; Do_Raise 5; Env_destroy 7%nat] in
  let e := new_Event "OnEvent" in
  let w : @World Z := fresh in
  let e' := (after ops).1 in
  let w' := (after ops).2 in
  run ops e w = Ok (e', w')
  ∧ (GetName e' = GetName e
     ∧ (Forall (λ op, ∀ args, op ≠ Do_Raise args) ops → log w' = log w)
     ∧ ∃ l, log w' = log w ++ l
            ∧ ∀ i, i ∈ l →
                ∃ cb, inv_fn i = user_fn cb ∧ inv_this i = receiver cb
                      ∧ (cb ∈ all_callbacks e
                         ∨ ∃ op w0 t, op ∈ ops ∧ registers op w0 = Some (t, cb))).
Proof.
  intros ops e w e' w'.
  assert (Hrun : run ops e w = Ok (e', w')) by (vm_compute; reflexivity).
  split; [done|]. exact (X11_only_Raise_runs_user_code ops e w e' w' Hrun).
Defined.

(** A lambda is bound for an object that already has a member function
    bound. *)
Lemma X13_witness :
  let op : @Operation Z := Do_Bind_Callback_ptr 2%nat 100 in
  let e := (after (A:=Z) [Do_Bind_Member_ptr 1%nat 100]).1 in
  let w : @World Z := fresh in
  let t := 100 in
  let cb := bound_Callback_ptr 2%nat 100 false in
  registers op w = Some (t, cb)
  ∧ ∃ e', step op e w = Ok (e', w)
      ∧ all_callbacks e' ≡ₚ all_callbacks e ++ [cb]
      ∧ dom (Binds (GetBinder e')) = {[t]} ∪ dom (Binds (GetBinder e))
      ∧ (Z.of_nat (length (all_callbacks e)) < INT_MAX →
           CallbackCount e' = CallbackCount e + 1)
      ∧ (Z.of_nat (size (dom (Binds (GetBinder e)))) < INT_MAX →
           Size e' = Size e + (if bool_decide (t ∈ dom (Binds (GetBinder e))) then 0 else 1)).
Proof.
  intros op e w t cb.
  assert (Hreg : registers op w = Some (t, cb)) by reflexivity.
  split; [done|]. exact (X13_Bind_adds_one_callback op e w t cb Hreg).
Defined.

(** A member function and a fire-once lambda, then a pass. *)
Lemma X14_witness :
  let ops : list (@Operation Z) := [Do_Bind_Member_ptr 1%nat 100; Do_BindOnce_Callback 2%nat] in
  let e := (after ops).1 in
  let w := (after ops).2 in
  (reachable e w ∧ Z.of_nat (length (all_callbacks e)) ≤ INT_MAX)
  ∧ (CallbackCount (Raise e 5 w).1 =
       Z.of_nat (length (filter (λ cb, survives cb w = true) (all_callbacks e)))
     ∧ CallbackCount (Raise e 5 w).1 ≤ CallbackCount e
     ∧ Size (Raise e 5 w).1 ≤ Size e
     ∧ 0 ≤ Size (Raise e 5 w).1 ≤ CallbackCount (Raise e 5 w).1).
Proof.
  intros ops e w.
  assert (R : reachable e w) by apply after_reachable.
  assert (Hmax : Z.of_nat (length (all_callbacks e)) ≤ INT_MAX) by (vm_compute; discriminate).
  split; [done|]. exact (X14_Raise_never_grows_the_counts e 5 w R Hmax).
Defined.

(** The test "BindOnce with member function", on an event that already has
    a listener. *)
Lemma X15_witness :
  let op : @Operation Z := Do_BindOnce_Member_ptr 2%nat 200 in
  let e := (after (A:=Z) [Do_Bind_Member_ptr 1%nat 100]).1 in
  let w := (after (A:=Z) [Do_Bind_Member_ptr 1%nat 100]).2 in
  let t := 200 in
  let cb := bound_Member_ptr 200 2%nat true in
  (reachable e w ∧ registers op w = Some (t, cb) ∧ is_once cb = true
   ∧ (∀ cb', cb' ∈ all_callbacks e → survives cb' w = true))
  ∧ ∃ e1, step op e w = Ok (e1, w)
      ∧ (Raise e1 5 w).1 = e
      ∧ times_invoked (user_fn cb) (log (Raise e1 5 w).2) =
          (times_invoked (user_fn cb) (log w)
           + length (filter (λ cb', user_fn cb' = user_fn cb) (all_callbacks e)) + 1)%nat.
Proof.
  intros op e w t cb.
  assert (R : reachable e w) by apply after_reachable.
  assert (Hreg : registers op w = Some (t, cb)) by reflexivity.
  assert (Honce : is_once cb = true) by reflexivity.
  assert (Hall : ∀ cb', cb' ∈ all_callbacks e → survives cb' w = true).
  { refine (for_all_elements (λ cb', survives cb' w = true) _ _).
    vm_compute. repeat (constructor; try done). }
  split; [done|].
  exact (X15_BindOnce_then_Raise_restores_the_event op e w t cb 5 R Hreg Honce Hall).
Defined.

(** The test "Multiple callbacks are invoked", an [Event<int>]. *)
Lemma X17_witness :
  let e := (after (A:=Z) [Do_Bind_Callback 1%nat; Do_Bind_Callback 2%nat]).1 in
  let w : @World Z := fresh in
  trivially_copyable Z
  ∧ (let visited := mjoin (traverse (Binds (Binder e))).*2 in
     ∃ l, log (Raise e 7 w).2 = log w ++ l
          ∧ visited ≡ₚ all_callbacks e
          ∧ l = (λ cb, Invoked (user_fn cb) (receiver cb) 7)
                  <$> filter (λ cb, liveness cb w = true) visited
          ∧ l ≡ₚ (λ cb, Invoked (user_fn cb) (receiver cb) 7)
                   <$> filter (λ cb, liveness cb w = true) (all_callbacks e)).
Proof.
  intros e w.
  assert (T : trivially_copyable Z) by (intros a; reflexivity).
  split; [done|]. exact (X17_copyable_arguments_reach_every_listener e 7 w T).
Defined.

(** The test "Member function binding with weak_ptr auto expires", between
    the end of the object's scope and the next pass. *)
Lemma X19_witness :
  let e := (after weak_then_destroyed).1 in
  let w := (after weak_then_destroyed).2 in
  let k := 100 in
  let weak := weak_of strong in
  let cb := bound_Member_weak weak 1%nat false in
  (reachable e w ∧ cb ∈ callbacks_of k e ∧ weak_ref cb = Some weak
   ∧ expired weak w = true)
  ∧ (IsBound_weak weak w (GetBinder e) = Ok false
     ∧ IsBound_ptr k (GetBinder e) = Ok true
     ∧ k ∈ dom (Binds (GetBinder e))
     ∧ cb ∈ all_callbacks e
     ∧ (∀ a, (length (all_callbacks (Raise e a w).1) < length (all_callbacks e))%nat)
     ∧ (Z.of_nat (length (all_callbacks e)) ≤ INT_MAX →
          1 ≤ Size e
          ∧ 1 ≤ CallbackCount e
          ∧ ∀ a, CallbackCount (Raise e a w).1 < CallbackCount e)).
Proof.
  intros e w k weak cb.
  assert (R : reachable e w) by apply after_reachable.
  assert (Hcb : cb ∈ callbacks_of k e) by (vm_compute; left).
  assert (Hweak : weak_ref cb = Some weak) by reflexivity.
  assert (Hexp : expired weak w = true) by (vm_compute; reflexivity).
  split; [done|].
  exact (X19_destroyed_object_is_counted_until_the_next_Raise e w k cb weak
           R Hcb Hweak Hexp).
Defined.

(** The same lambda bound three times. *)
Lemma X20_witness :
  let op : @Operation Z := Do_Bind_Callback 1%nat in
  let e := (after (A:=Z) [Do_Bind_Callback 2%nat]).1 in
  let w : @World Z := fresh in
  let t := StandaloneCallbackKey in
  let cb := bound_Callback 1%nat false in
  registers op w = Some (t, cb)
  ∧ ∃ e', run (replicate 3 op) e w = Ok (e', w)
      ∧ all_callbacks e' ≡ₚ all_callbacks e ++ replicate 3 cb
      ∧ times_invoked (user_fn cb) (log (Raise e' 5 w).2) =
          (times_invoked (user_fn cb) (log w) + 3
           + length (filter (λ cb', user_fn cb' = user_fn cb ∧ liveness cb' w = true)
                       (all_callbacks e)))%nat.
Proof.
  intros op e w t cb.
  assert (Hreg : registers op w = Some (t, cb)) by reflexivity.
  split; [done|]. exact (X20_binding_again_subscribes_again op e w t cb 3 5 Hreg).
Defined.
